(** * Tint shader front-end: AST function queries, parser results,
      IR conversion and the transform interface.

    A shallow embedding of
      - [src/ast/function.cc]                    (module [ast]),
      - [src/tint/reader/wgsl/parser_impl.h]     (module [wgsl]),
      - [src/tint/ir/converter.cc], [unary.h]    (module [ir]),
      - [src/tint/transform/transform.h]         (module [transform]),
    followed by the properties established about them. *)

From stdpp Require Import base numbers option list strings gmap.

Set Default Proof Using "Type".

(** [uint32_t] and [size_t] values are only stored and compared by the code
    embedded here (never added or multiplied), so they are carried as [N]. *)
Abbreviation uint32_t := N.
Abbreviation size_t := N.

(* ===================================================================== *)
(** * [tint::ast] : [src/ast/function.cc]                                 *)
(* ===================================================================== *)
Module ast.

(** ** Decorations *)

Inductive PipelineStage := kNone | kVertex | kFragment | kCompute.

(** [WorkgroupDecoration::values()] is the triple [(x, y, z)]. *)
Record WorkgroupDecoration := mkWorkgroup { wg_x : uint32_t; wg_y : uint32_t; wg_z : uint32_t }.

Definition values (w : WorkgroupDecoration) : uint32_t * uint32_t * uint32_t :=
  (wg_x w, wg_y w, wg_z w).

(** The classes deriving from [FunctionDecoration]. *)
Inductive FunctionDecoration :=
| StageDeco (stage : PipelineStage)
| WorkgroupDeco (w : WorkgroupDecoration).

Definition FunctionDecorationList := list FunctionDecoration.

(** [deco->As<WorkgroupDecoration>()] : the down-cast, [None] for [nullptr]. *)
Definition As_WorkgroupDecoration (d : FunctionDecoration) : option WorkgroupDecoration :=
  match d with WorkgroupDeco w => Some w | _ => None end.

Definition As_StageDecoration (d : FunctionDecoration) : option PipelineStage :=
  match d with StageDeco s => Some s | _ => None end.

Inductive Builtin := kPosition | kVertexIdx | kInstanceIdx | kFrontFacing | kFragCoord
                   | kFragDepth | kLocalInvocationId | kLocalInvocationIdx | kGlobalInvocationId.

Record BindingDecoration := mkBinding { binding_value : uint32_t }.
Record SetDecoration := mkSet { set_value : uint32_t }.
Record LocationDecoration := mkLocation { location_value : uint32_t }.

(** The classes deriving from [VariableDecoration]. *)
Inductive VariableDecoration :=
| BindingDeco (b : BindingDecoration)
| BuiltinDeco (b : Builtin)
| ConstantIdDeco (id : uint32_t)
| LocationDeco (l : LocationDecoration)
| SetDeco (s : SetDecoration).

Definition VariableDecorationList := list VariableDecoration.

Definition As_BindingDecoration (d : VariableDecoration) : option BindingDecoration :=
  match d with BindingDeco b => Some b | _ => None end.

Definition As_SetDecoration (d : VariableDecoration) : option SetDecoration :=
  match d with SetDeco s => Some s | _ => None end.

(** ** Variables *)

Inductive StorageClass :=
| kNoStorage | kInput | kOutput | kUniform | kWorkgroup | kUniformConstant
| kStorageBuffer | kImage | kPrivate | kFunction.

Global Instance StorageClass_eq_dec : EqDecision StorageClass.
Proof. solve_decision. Defined.

(** A [Variable*].  [object] stands for the identity of the pointed-to
    object (two distinct objects may carry the same name).  A
    [DecoratedVariable] is a [Variable] with a decoration list:
    [var->As<DecoratedVariable>()] is [decorated var]. *)
Record Variable_ := mkVariable {
  object : nat;
  name : string;
  storage_class : StorageClass;
  decorated : option VariableDecorationList
}.

Definition As_DecoratedVariable (var : Variable_) : option VariableDecorationList :=
  decorated var.

(** ** Functions *)

(** The members of [Function] read or written by the methods below. *)
Record Function := mkFunction {
  name_ : string;
  decorations_ : FunctionDecorationList;
  referenced_module_vars_ : list Variable_;
  local_referenced_module_vars_ : list Variable_;
  ancestor_entry_points_ : list string
}.

(** The constructor: the three derived lists start empty. *)
Definition Function_new (nm : string) (decorations : FunctionDecorationList) : Function :=
  {| name_ := nm; decorations_ := decorations;
     referenced_module_vars_ := []; local_referenced_module_vars_ := [];
     ancestor_entry_points_ := [] |}.

Definition referenced_module_variables (f : Function) : list Variable_ :=
  referenced_module_vars_ f.

(** [Function::workgroup_size]: the [for] loop with its early [return]. *)
Fixpoint workgroup_size_loop (decos : FunctionDecorationList) : uint32_t * uint32_t * uint32_t :=
  match decos with
  | [] => (1, 1, 1)%N
  | deco :: rest =>
      match As_WorkgroupDecoration deco with
      | Some workgroup => values workgroup
      | None => workgroup_size_loop rest
      end
  end.

Definition workgroup_size (f : Function) : uint32_t * uint32_t * uint32_t :=
  workgroup_size_loop (decorations_ f).

(** [Function::pipeline_stage]. *)
Fixpoint pipeline_stage_loop (decos : FunctionDecorationList) : PipelineStage :=
  match decos with
  | [] => kNone
  | deco :: rest =>
      match As_StageDecoration deco with
      | Some stage => stage
      | None => pipeline_stage_loop rest
      end
  end.

Definition pipeline_stage (f : Function) : PipelineStage :=
  pipeline_stage_loop (decorations_ f).

(** [Function::add_referenced_module_variable]: scan the list, [return]
    on the first entry with the same name, otherwise [push_back]. *)
Fixpoint name_listed (vars : list Variable_) (var : Variable_) : bool :=
  match vars with
  | [] => false
  | v :: rest => if decide (name v = name var) then true else name_listed rest var
  end.

Definition add_referenced_module_variable (f : Function) (var : Variable_) : Function :=
  if name_listed (referenced_module_vars_ f) var then f
  else {| name_ := name_ f; decorations_ := decorations_ f;
          referenced_module_vars_ := referenced_module_vars_ f ++ [var];
          local_referenced_module_vars_ := local_referenced_module_vars_ f;
          ancestor_entry_points_ := ancestor_entry_points_ f |}.

(** [Function::BindingInfo]. *)
Record BindingInfo := mkBindingInfo { binding : BindingDecoration; set : SetDecoration }.

(** The inner loop of [referenced_uniform_variables]: [binding] and [set]
    start as [nullptr] and are overwritten by every matching decoration. *)
Definition scan_decoration (st : option BindingDecoration * option SetDecoration)
    (deco : VariableDecoration) : option BindingDecoration * option SetDecoration :=
  match As_BindingDecoration deco with
  | Some b => (Some b, st.2)
  | None =>
      match As_SetDecoration deco with
      | Some s => (st.1, Some s)
      | None => st
      end
  end.

Definition scan_decorations (decos : VariableDecorationList)
    : option BindingDecoration * option SetDecoration :=
  foldl scan_decoration (None, None) decos.

(** One iteration of the outer loop, [ret] being the vector under
    construction. *)
Definition uniform_step (ret : list (Variable_ * BindingInfo)) (var : Variable_)
    : list (Variable_ * BindingInfo) :=
  if negb (bool_decide (storage_class var = kUniform)) then ret
  else
    match As_DecoratedVariable var with
    | Some decos =>
        match scan_decorations decos with
        | (Some b, Some s) => ret ++ [(var, {| binding := b; set := s |})]
        | _ => ret
        end
    | None => ret
    end.

Definition referenced_uniform_variables (f : Function) : list (Variable_ * BindingInfo) :=
  foldl uniform_step [] (referenced_module_variables f).

(** ** Vocabulary for the statements about [referenced_uniform_variables] *)

(** [var] is a decorated variable that carries a binding decoration and a
    set decoration. *)
Definition carries_binding_and_set (var : Variable_) : Prop :=
  match decorated var with
  | Some decos =>
      Exists (λ d, is_Some (As_BindingDecoration d)) decos
      ∧ Exists (λ d, is_Some (As_SetDecoration d)) decos
  | None => False
  end.

Global Instance carries_binding_and_set_dec var : Decision (carries_binding_and_set var).
Proof. unfold carries_binding_and_set. destruct (decorated var); apply _. Defined.

Definition uniform_with_binding (var : Variable_) : Prop :=
  storage_class var = kUniform ∧ carries_binding_and_set var.

Global Instance uniform_with_binding_dec var : Decision (uniform_with_binding var).
Proof. unfold uniform_with_binding. apply _. Defined.

(** What one iteration of the outer loop appends for [var], if anything. *)
Definition uniform_entry (var : Variable_) : option (Variable_ * BindingInfo) :=
  match uniform_step [] var with
  | [] => None
  | entry :: _ => Some entry
  end.


(** ** The other members of [Function] that work on the derived lists *)

Definition As_LocationDecoration (d : VariableDecoration) : option LocationDecoration :=
  match d with LocationDeco l => Some l | _ => None end.

Definition As_BuiltinDecoration (d : VariableDecoration) : option Builtin :=
  match d with BuiltinDeco b => Some b | _ => None end.

Definition local_referenced_module_variables (f : Function) : list Variable_ :=
  local_referenced_module_vars_ f.

(** [Function::add_local_referenced_module_variable] *)
Definition add_local_referenced_module_variable (f : Function) (var : Variable_) : Function :=
  if name_listed (local_referenced_module_vars_ f) var then f
  else {| name_ := name_ f; decorations_ := decorations_ f;
          referenced_module_vars_ := referenced_module_vars_ f;
          local_referenced_module_vars_ := local_referenced_module_vars_ f ++ [var];
          ancestor_entry_points_ := ancestor_entry_points_ f |}.

(** [Function::add_ancestor_entry_point]: [return] on an equal entry,
    otherwise [push_back]. *)
Fixpoint entry_point_listed (points : list string) (ep : string) : bool :=
  match points with
  | [] => false
  | point :: rest => if decide (point = ep) then true else entry_point_listed rest ep
  end.

Definition add_ancestor_entry_point (f : Function) (ep : string) : Function :=
  if entry_point_listed (ancestor_entry_points_ f) ep then f
  else {| name_ := name_ f; decorations_ := decorations_ f;
          referenced_module_vars_ := referenced_module_vars_ f;
          local_referenced_module_vars_ := local_referenced_module_vars_ f;
          ancestor_entry_points_ := ancestor_entry_points_ f ++ [ep] |}.

(** [Function::HasAncestorEntryPoint] *)
Fixpoint HasAncestorEntryPoint_loop (points : list string) (nm : string) : bool :=
  match points with
  | [] => false
  | point :: rest => if decide (point = nm) then true else HasAncestorEntryPoint_loop rest nm
  end.

Definition HasAncestorEntryPoint (f : Function) (nm : string) : bool :=
  HasAncestorEntryPoint_loop (ancestor_entry_points_ f) nm.

(** [Function::referenced_location_variables]: the inner loop pushes the
    first location decoration and [break]s. *)
Fixpoint location_loop (ret : list (Variable_ * LocationDecoration)) (var : Variable_)
    (decos : VariableDecorationList) : list (Variable_ * LocationDecoration) :=
  match decos with
  | [] => ret
  | deco :: rest =>
      match As_LocationDecoration deco with
      | Some location => ret ++ [(var, location)]
      | None => location_loop ret var rest
      end
  end.

Definition location_step (ret : list (Variable_ * LocationDecoration)) (var : Variable_)
    : list (Variable_ * LocationDecoration) :=
  match As_DecoratedVariable var with
  | Some decos => location_loop ret var decos
  | None => ret
  end.

Definition referenced_location_variables (f : Function)
    : list (Variable_ * LocationDecoration) :=
  foldl location_step [] (referenced_module_variables f).

(** [Function::referenced_builtin_variables] and
    [Function::local_referenced_builtin_variables]: the same loops, over
    the two lists. *)
Fixpoint builtin_loop (ret : list (Variable_ * Builtin)) (var : Variable_)
    (decos : VariableDecorationList) : list (Variable_ * Builtin) :=
  match decos with
  | [] => ret
  | deco :: rest =>
      match As_BuiltinDecoration deco with
      | Some builtin => ret ++ [(var, builtin)]
      | None => builtin_loop ret var rest
      end
  end.

Definition builtin_step (ret : list (Variable_ * Builtin)) (var : Variable_)
    : list (Variable_ * Builtin) :=
  match As_DecoratedVariable var with
  | Some decos => builtin_loop ret var decos
  | None => ret
  end.

Definition referenced_builtin_variables (f : Function) : list (Variable_ * Builtin) :=
  foldl builtin_step [] (referenced_module_variables f).

Definition local_referenced_builtin_variables (f : Function) : list (Variable_ * Builtin) :=
  foldl builtin_step [] (local_referenced_module_variables f).

(** [Function::referenced_storagebuffer_variables] *)
Definition storagebuffer_step (ret : list (Variable_ * BindingInfo)) (var : Variable_)
    : list (Variable_ * BindingInfo) :=
  if negb (bool_decide (storage_class var = kStorageBuffer)) then ret
  else
    match As_DecoratedVariable var with
    | Some decos =>
        match scan_decorations decos with
        | (Some b, Some s) => ret ++ [(var, {| binding := b; set := s |})]
        | _ => ret
        end
    | None => ret
    end.

Definition referenced_storagebuffer_variables (f : Function)
    : list (Variable_ * BindingInfo) :=
  foldl storagebuffer_step [] (referenced_module_variables f).

(** ** The sampler and texture queries *)

(** Modelled from the spec: the type classes ([src/ast/type/...]) are not
    among the embedded files.  "sampler(kind: filtering | comparison)",
    "texture(dimension, sampled-type, multisampled?)": what the two
    queries below look at in an unwrapped type is whether it is a sampler,
    and of which kind, or a texture, and of which class. *)
Inductive SamplerKind := kSampler | kComparisonSampler.

Global Instance SamplerKind_eq_dec : EqDecision SamplerKind.
Proof. solve_decision. Defined.

Inductive TextureClass := DepthTexture | MultisampledTexture | SampledTexture | StorageTexture.

Global Instance TextureClass_eq_dec : EqDecision TextureClass.
Proof. solve_decision. Defined.

Inductive UnwrappedType :=
| SamplerType (kind : SamplerKind)
| TextureType (texture : TextureClass)
| OtherType.

Global Instance UnwrappedType_eq_dec : EqDecision UnwrappedType.
Proof. solve_decision. Defined.

(** [unwrapped_type->As<type::Sampler>()], with [sampler->kind()] *)
Definition As_Sampler (t : UnwrappedType) : option SamplerKind :=
  match t with SamplerType kind => Some kind | _ => None end.

(** [unwrapped_type->As<type::Texture>()] *)
Definition As_Texture (t : UnwrappedType) : option TextureClass :=
  match t with TextureType texture => Some texture | _ => None end.

(** [texture->Is<type::MultisampledTexture>()], [texture->Is<type::SampledTexture>()] *)
Definition Is_MultisampledTexture (texture : TextureClass) : bool :=
  match texture with MultisampledTexture => true | _ => false end.

Definition Is_SampledTexture (texture : TextureClass) : bool :=
  match texture with SampledTexture => true | _ => false end.

(** The inner loop of [ReferencedSamplerVariablesImpl]: two independent
    [if]s, where the other queries have [if ... else if]. *)
Definition scan_decoration_sampler (st : option BindingDecoration * option SetDecoration)
    (deco : VariableDecoration) : option BindingDecoration * option SetDecoration :=
  let st1 := match As_BindingDecoration deco with
             | Some b => (Some b, st.2)
             | None => st
             end in
  match As_SetDecoration deco with
  | Some s => (st1.1, Some s)
  | None => st1
  end.

Definition scan_decorations_sampler (decos : VariableDecorationList)
    : option BindingDecoration * option SetDecoration :=
  foldl scan_decoration_sampler (None, None) decos.

Section TypedQueries.
(** [var->type()->UnwrapIfNeeded()] *)
Variable unwrapped_type : Variable_ → UnwrappedType.

(** [Function::ReferencedSamplerVariablesImpl(kind)] *)
Definition sampler_step (kind : SamplerKind) (ret : list (Variable_ * BindingInfo))
    (var : Variable_) : list (Variable_ * BindingInfo) :=
  match As_Sampler (unwrapped_type var) with
  | None => ret
  | Some sampler_kind =>
      if negb (bool_decide (sampler_kind = kind)) then ret
      else
        match As_DecoratedVariable var with
        | Some decos =>
            match scan_decorations_sampler decos with
            | (Some b, Some s) => ret ++ [(var, {| binding := b; set := s |})]
            | _ => ret
            end
        | None => ret
        end
  end.

Definition ReferencedSamplerVariablesImpl (f : Function) (kind : SamplerKind)
    : list (Variable_ * BindingInfo) :=
  foldl (sampler_step kind) [] (referenced_module_variables f).

Definition referenced_sampler_variables (f : Function) :=
  ReferencedSamplerVariablesImpl f kSampler.

Definition referenced_comparison_sampler_variables (f : Function) :=
  ReferencedSamplerVariablesImpl f kComparisonSampler.

(** [Function::ReferencedSampledTextureVariablesImpl(multisampled)] *)
Definition texture_step (multisampled : bool) (ret : list (Variable_ * BindingInfo))
    (var : Variable_) : list (Variable_ * BindingInfo) :=
  match As_Texture (unwrapped_type var) with
  | None => ret
  | Some texture =>
      let is_multisampled := Is_MultisampledTexture texture in
      let is_sampled := Is_SampledTexture texture in
      if (multisampled && negb is_multisampled) || (negb multisampled && negb is_sampled)
      then ret
      else
        match As_DecoratedVariable var with
        | Some decos =>
            match scan_decorations decos with
            | (Some b, Some s) => ret ++ [(var, {| binding := b; set := s |})]
            | _ => ret
            end
        | None => ret
        end
  end.

Definition ReferencedSampledTextureVariablesImpl (f : Function) (multisampled : bool)
    : list (Variable_ * BindingInfo) :=
  foldl (texture_step multisampled) [] (referenced_module_variables f).

Definition referenced_sampled_texture_variables (f : Function) :=
  ReferencedSampledTextureVariablesImpl f false.

Definition referenced_multisampled_texture_variables (f : Function) :=
  ReferencedSampledTextureVariablesImpl f true.
End TypedQueries.

(** ** Vocabulary for the statements about the binding queries *)

(** The shape the four binding queries share: skip the variables that
    [keep] rejects, pair the others with the binding and set found by the
    inner loop. *)
Definition binding_step (keep : Variable_ → bool) (ret : list (Variable_ * BindingInfo))
    (var : Variable_) : list (Variable_ * BindingInfo) :=
  if negb (keep var) then ret
  else
    match As_DecoratedVariable var with
    | Some decos =>
        match scan_decorations decos with
        | (Some b, Some s) => ret ++ [(var, {| binding := b; set := s |})]
        | _ => ret
        end
    | None => ret
    end.

Definition binding_entry (keep : Variable_ → bool) (var : Variable_)
    : option (Variable_ * BindingInfo) :=
  match binding_step keep [] var with
  | [] => None
  | entry :: _ => Some entry
  end.

(** [var] is a decorated variable with a decoration that [As] recognises. *)
Definition carries {A} (As : VariableDecoration → option A) (var : Variable_) : Prop :=
  match decorated var with
  | Some decos => Exists (λ d, is_Some (As d)) decos
  | None => False
  end.

Global Instance carries_dec {A} (As : VariableDecoration → option A) var :
  Decision (carries As var).
Proof. unfold carries. destruct (decorated var); apply _. Defined.

(** The first decoration of [var] that [As] recognises. *)
Definition first_decoration {A} (As : VariableDecoration → option A) (var : Variable_)
    : option A :=
  decos ← decorated var; head (omap As decos).

End ast.

(* ===================================================================== *)
(** * [tint::reader::wgsl] : [src/tint/reader/wgsl/parser_impl.h]         *)
(* ===================================================================== *)
Module wgsl.

(** Modelled from the spec: the [Source] class ([src/tint/source.h]) is not
    among the files embedded here.  A source span is
    {file, start line/column, end line/column}; [Source{}] has no file and
    an all-zero range. *)
Record Location := mkLocation { line : size_t; column : size_t }.
Record Source := mkSource { file : option string; range_begin : Location; range_end : Location }.

Definition Source_default : Source :=
  {| file := None; range_begin := mkLocation 0 0; range_end := mkLocation 0 0 |}.

(** [T value{}] : every result type can be value-initialised. *)
Class ValueInit (T : Type) := value_init : T.
Global Hint Mode ValueInit ! : typeclass_instances.

Global Instance Source_ValueInit : ValueInit Source := Source_default.
Global Instance N_ValueInit : ValueInit N := 0%N.
Global Instance bool_ValueInit : ValueInit bool := false.
Global Instance string_ValueInit : ValueInit string := EmptyString.
(** Pointer types ([const ast::Expression*], ...) value-initialise to [nullptr]. *)
Global Instance option_ValueInit {A} : ValueInit (option A) := None.

(** [T(u)] for [u : U] : the construction of a [T] from a [U] that the
    member initialisers [value(e.value)] and [source(e.value)] perform.
    For [U = T] this is the copy (or move) constructor. *)
Class ConstructFrom (U T : Type) := construct : U → T.
Global Hint Mode ConstructFrom ! ! : typeclass_instances.

Global Instance ConstructFrom_same {T} : ConstructFrom T T := λ x, x.

(** ** [Expect<T>] *)
Module Expect.
Record t (T : Type) := mk { value : T; source : Source; errored : bool }.
Global Arguments mk {T} _ _ _.
Global Arguments value {T} _.
Global Arguments source {T} _.
Global Arguments errored {T} _.

(** [Expect(U&& val, const Source& s = {})] *)
Definition of_value {U T} `{!ConstructFrom U T} (val : U) (s : Source) : t T :=
  {| value := construct val; source := s; errored := false |}.

(** [Expect(Failure::Errored)] *)
Definition of_errored {T} `{!ValueInit T} : t T :=
  {| value := value_init; source := Source_default; errored := true |}.
End Expect.

(** ** [Maybe<T>] *)
Module Maybe.
Record t (T : Type) := mk { value : T; source : Source; errored : bool; matched : bool }.
Global Arguments mk {T} _ _ _ _.
Global Arguments value {T} _.
Global Arguments source {T} _.
Global Arguments errored {T} _.
Global Arguments matched {T} _.

(** [Maybe(U&& val, const Source& s = {})] *)
Definition of_value {U T} `{!ConstructFrom U T} (val : U) (s : Source) : t T :=
  {| value := construct val; source := s; errored := false; matched := true |}.

(** [Maybe(Failure::Errored)] *)
Definition of_errored {T} `{!ValueInit T} : t T :=
  {| value := value_init; source := Source_default; errored := true; matched := false |}.

(** [Maybe(Failure::NoMatch)] *)
Definition of_no_match {T} `{!ValueInit T} : t T :=
  {| value := value_init; source := Source_default; errored := false; matched := false |}.

(** [Maybe(const Expect<U>& e)]
    [: value(e.value), source(e.value), errored(e.errored), matched(!e.errored)] *)
Definition of_expect_copy {U T} `{!ConstructFrom U T} `{!ConstructFrom U Source}
    (e : Expect.t U) : t T :=
  {| value := construct (Expect.value e);
     source := construct (Expect.value e);
     errored := Expect.errored e;
     matched := negb (Expect.errored e) |}.

(** [Maybe(Expect<U>&& e)]
    [: value(std::move(e.value)), source(std::move(e.source)),
       errored(e.errored), matched(!e.errored)] *)
Definition of_expect_move {U T} `{!ConstructFrom U T} (e : Expect.t U) : t T :=
  {| value := construct (Expect.value e);
     source := Expect.source e;
     errored := Expect.errored e;
     matched := negb (Expect.errored e) |}.

(** The ways a [Maybe<T>] comes into being: the five constructors above
    (the defaulted copy/move constructors and assignments duplicate an
    existing one). *)
Inductive constructed {T} `{!ValueInit T} : t T → Prop :=
| by_value U `{!ConstructFrom U T} (val : U) (s : Source) :
    constructed (of_value val s)
| by_errored : constructed of_errored
| by_no_match : constructed of_no_match
| by_expect_copy U `{!ConstructFrom U T} `{!ConstructFrom U Source} (e : Expect.t U) :
    constructed (of_expect_copy e)
| by_expect_move U `{!ConstructFrom U T} (e : Expect.t U) :
    constructed (of_expect_move e).

(** The three outcomes of a grammar rule. *)
Inductive Outcome := Matched | NoMatch | Errored.

Definition is_matched {T} (m : t T) : Prop := matched m = true ∧ errored m = false.
Definition is_no_match {T} (m : t T) : Prop := matched m = false ∧ errored m = false.
Definition is_errored {T} (m : t T) : Prop := errored m = true ∧ matched m = false.

(** The state a [Maybe] is in, as a relation between its two flags and the
    outcome. *)
Definition in_state {T} (m : t T) (o : Outcome) : Prop :=
  match o with
  | Matched => is_matched m
  | NoMatch => is_no_match m
  | Errored => is_errored m
  end.
End Maybe.

(** ** The parser state read by [continue_parsing] *)

(** The scalar members of the class; the error count of the builder's
    diagnostics, [builder_.Diagnostics().error_count()], is kept as the
    field [error_count]. *)
Record ParserImpl := mkParserImpl {
  next_token_idx_ : size_t;
  last_source_idx_ : size_t;
  synchronized_ : bool;
  parse_depth_ : uint32_t;
  silence_errors_ : Z;
  error_count : size_t;
  max_errors_ : size_t
}.

(** The default member initialisers, with a builder that holds no
    diagnostic yet. *)
Definition ParserImpl_new : ParserImpl :=
  {| next_token_idx_ := 0; last_source_idx_ := 0; synchronized_ := true;
     parse_depth_ := 0; silence_errors_ := 0; error_count := 0; max_errors_ := 25 |}.

(** [return synchronized_ && builder_.Diagnostics().error_count() < max_errors_;] *)
Definition continue_parsing (p : ParserImpl) : bool :=
  synchronized_ p && bool_decide (error_count p < max_errors_ p)%N.

End wgsl.

(* ===================================================================== *)
(** * [tint::ir] : [src/tint/ir/converter.cc], [src/tint/ir/unary.h]      *)
(* ===================================================================== *)
Module ir.

(** ** [Converter::FromProgram] *)

(** [utils::Result<ir::Module, std::string>] *)
Inductive Result (IRModule : Type) :=
| Success (m : IRModule)
| Failure (msg : string).
Global Arguments Success {IRModule} m.
Global Arguments Failure {IRModule} msg.

Section Converter.
(** [Program], [ir::Module], [diag::List] and [BuilderImpl] are declared in
    headers outside the embedded files; [FromProgram] is parametric in
    them.  [Build program] stands for [BuilderImpl b(program); b.Build()]
    and yields the result [r] together with [b.Diagnostics()]. *)
Context {Program IRModule diag_List : Type}.
Variable IsValid : Program → bool.
Variable Build : Program → option IRModule * diag_List.
Variable str : diag_List → string.

(** The value returned by [FromProgram], paired with the programs a
    [BuilderImpl] was constructed and run on during the call. *)
Record Conversion := mkConversion {
  result : Result IRModule;
  builders_run : list Program
}.

Definition FromProgram (program : Program) : Conversion :=
  if negb (IsValid program) then
    {| result := Failure "input program is not valid"; builders_run := [] |}
  else
    let '(r, diagnostics) := Build program in
    match r with
    | None => {| result := Failure (str diagnostics); builders_run := [program] |}
    | Some m => {| result := Success m; builders_run := [program] |}
    end.
End Converter.
Global Arguments Conversion : clear implicits.
Global Arguments mkConversion {Program IRModule} _ _.
Global Arguments result {Program IRModule} _.
Global Arguments builders_run {Program IRModule} _.

(** ** Values, [Unary] instructions and the [Builder] *)

(** A few of the interned [type::Type]s. *)
Inductive Type_ := I32 | U32 | F32 | Bool | Pointer (pointee : Type_).

Module Unary.
(** [enum class Kind] *)
Inductive Kind := kAddressOf | kComplement | kIndirection | kNegation | kNot.
End Unary.

(** A [Value*] is the index of the object in the module's arena. *)
Abbreviation ValueRef := nat.

(** Modelled from the spec: the value classes ([value.h], [constant.h]) are
    not among the embedded files.  "Value: either a compile-time Constant
    ... or the result of an instruction".  The two kinds of value used
    here: a constant, and the instruction [Unary(id, kind, type, val)]
    declared in [unary.h]. *)
Inductive Node :=
| ConstantNode (value : Z)
| UnaryNode (id : uint32_t) (kind : Unary.Kind) (type : Type_) (val : ValueRef).

(** [Unary::Val()] *)
Definition Val (n : Node) : option ValueRef :=
  match n with UnaryNode _ _ _ val => Some val | ConstantNode _ => None end.

(** Modelled from the spec: [value.h], [unary.cc], [module.h] and
    [builder.h] are not among the embedded files.  "Every instruction
    records the operand Values it consumes and every Value records the
    instructions that use it (bidirectional def-use)"; "the IR Module
    exclusively owns all ... Instructions/Values".  A value carries its
    use-list [uses_]; the module owns the values in an arena. *)
Record Value := mkValue { node : Node; uses_ : list ValueRef }.

(** Modelled from the spec: [module.h] is not among the embedded files.
    "The IR Module exclusively owns all Functions/Blocks/Instructions/Values
    for its compilation": the arena of the values created so far. *)
Record Module_ := mkModule { values : list Value }.

(** Modelled from the spec: [builder.h] is not among the embedded files.
    The builder of the unit tests ([Builder b; b.ir...]) holds the module
    under construction and the id it hands to the next instruction. *)
Record Builder := mkBuilder { ir : Module_; next_inst_id_ : uint32_t }.

(** Modelled from the spec: the default-constructed [Builder] of the unit
    tests, over an empty module. *)
Definition Builder_new : Builder := {| ir := {| values := [] |}; next_inst_id_ := 0 |}.

(** Modelled from the spec: [Value::Usage()] ([value.h], not among the
    embedded files), "the value's recorded use-list", for the value [v] of
    the builder's module. *)
Definition Usage (b : Builder) (v : ValueRef) : list ValueRef :=
  default [] (uses_ <$> values (ir b) !! v).

(** Modelled from the spec: [Value::AddUsage(inst)] ([value.h], not among
    the embedded files), by which "every Value records the instructions
    that use it". *)
Definition AddUsage (inst : ValueRef) (v : Value) : Value :=
  {| node := node v; uses_ := uses_ v ++ [inst] |}.

(** Modelled from the spec: [Builder::Constant(val)] ([builder.h], not among
    the embedded files) creates a constant value in the module; nothing
    uses it yet. *)
Definition Constant (b : Builder) (c : Z) : Builder * ValueRef :=
  ({| ir := {| values := values (ir b) ++ [{| node := ConstantNode c; uses_ := [] |}] |};
      next_inst_id_ := next_inst_id_ b |},
   length (values (ir b))).

(** Modelled from the spec: [Builder::CreateUnary(kind, type, val)]
    ([builder.h], not among the embedded files) constructs
    [Unary(id, kind, type, val)] in the module; the constructor ([unary.cc],
    not among the embedded files) records the instruction in the use-list
    of its operand.  [val] is a [Value*]: it points to a value created
    earlier in the module, that is [val < length (values (ir b))]. *)
Definition CreateUnary (b : Builder) (kind : Unary.Kind) (type : Type_) (val : ValueRef)
    : Builder * ValueRef :=
  let inst := length (values (ir b)) in
  ({| ir := {| values :=
                 alter (AddUsage inst) val (values (ir b))
                 ++ [{| node := UnaryNode (next_inst_id_ b) kind type val; uses_ := [] |}] |};
      next_inst_id_ := ((next_inst_id_ b + 1) mod 2 ^ 32)%N |},
   inst).

(** Modelled from the spec: the builder members the unit tests call
    ([builder.h], not among the embedded files), one per [Unary::Kind]. *)
Definition AddressOf b type val := CreateUnary b Unary.kAddressOf type val.
Definition Complement b type val := CreateUnary b Unary.kComplement type val.
Definition Indirection b type val := CreateUnary b Unary.kIndirection type val.
Definition Negation b type val := CreateUnary b Unary.kNegation type val.
Definition Not b type val := CreateUnary b Unary.kNot type val.

(** The builders obtained from a fresh one by creating constants and unary
    instructions over values of the module. *)
Inductive reachable : Builder → Prop :=
| reach_new : reachable Builder_new
| reach_Constant b c : reachable b → reachable (Constant b c).1
| reach_CreateUnary b kind type val :
    reachable b → val < length (values (ir b)) →
    reachable (CreateUnary b kind type val).1.

(** [inst] is an instruction of the module whose operand list contains [v]. *)
Definition has_operand (b : Builder) (inst v : ValueRef) : Prop :=
  ∃ n, node <$> values (ir b) !! inst = Some n ∧ Val n = Some v.

End ir.

(* ===================================================================== *)
(** * [tint::transform] : [src/tint/transform/transform.h]                *)
(* ===================================================================== *)
Module transform.

(** [const utils::TypeInfo*] keys. *)
Abbreviation TypeInfo := positive.

(** [DataMap] : [std::unordered_map<const utils::TypeInfo*, std::unique_ptr<Data>>] *)
Abbreviation DataMap Data := (gmap TypeInfo Data).

Section Transform.
(** [Program] (with its cloning through a [CloneContext]) and the payload
    of [Data] objects are declared outside the embedded files. *)
Context {Program Data : Type}.
Variable Clone : Program → Program.
Local Abbreviation DataMap := (DataMap Data).

(** [map_[&TypeInfo::Of<T>()] = std::move(data)] *)
Definition Put (m : DataMap) (T : TypeInfo) (data : Data) : DataMap := <[T := data]> m.

(** [find], [nullptr] when absent *)
Definition Get (m : DataMap) (T : TypeInfo) : option Data := m !! T.

(** [class Output] *)
Record Output := mkOutput { program : Program; data : DataMap }.

(** [using ApplyResult = std::optional<Program>] *)
Definition ApplyResult := option Program.

(** [static inline constexpr std::nullopt_t SkipTransform = std::nullopt] *)
Definition SkipTransform : ApplyResult := None.

(** [class Transform] : the pure virtual [Apply(program, inputs, outputs)];
    [outputs] is an in-out reference, returned next to the result. *)
Class Transform (T : Type) := Apply : T → Program → DataMap → DataMap → ApplyResult * DataMap.

(** Modelled from the spec: the body of [Transform::Run] ([transform.cc]) is
    not among the embedded files.  "Runs the transform on program,
    returning the transformation result or a clone of program": [Apply] is
    run with a fresh [Output]; when it signals a skip the program of the
    output is a clone of the input. *)
Definition Run {T} `{!Transform T} (t : T) (prog : Program) (inputs : DataMap) : Output :=
  let '(r, outputs) := Apply t prog inputs ∅ in
  match r with
  | Some p => {| program := p; data := outputs |}
  | None => {| program := Clone prog; data := outputs |}
  end.
End Transform.
Global Arguments Output : clear implicits.
Global Arguments ApplyResult : clear implicits.
Global Arguments Transform : clear implicits.


Section DataMapOperations.
Context {Data : Type}.

(** [map_.emplace(key, data)] : inserts only when the key is absent. *)
Definition emplace (m : DataMap Data) (T : TypeInfo) (data : Data) : DataMap Data :=
  match m !! T with
  | Some _ => m
  | None => <[T := data]> m
  end.

(** What the loop of [DataMap::Add(DataMap&& other)],
    [for (auto& it : other.map_) map_.emplace(it.first, std::move(it.second))],
    does to the map it fills, [visit] being the sequence in which the
    unordered map of [other] hands out its entries. *)
Definition Add_loop (m : DataMap Data) (visit : list (TypeInfo * Data)) : DataMap Data :=
  foldl (λ acc it, emplace acc it.1 it.2) m visit.

(** [DataMap::Add(DataMap&& other)].  [other] is a reference, and nothing
    keeps it from being the map itself: [this] and [other] are the
    addresses of two map objects in the store [σ], equal or not.  The loop
    emplaces into the map at [this] each entry the map at [other] hands
    out, in the sequence [visit]; then [other.map_.clear()] empties the map
    at [other]. *)
Definition Add (σ : gmap nat (DataMap Data)) (this other : nat)
    (visit : list (TypeInfo * Data)) : gmap nat (DataMap Data) :=
  let filled := foldl (λ σ it, alter (λ m, emplace m it.1 it.2) this σ) σ visit in
  alter (λ _, ∅) other filled.

(** [PutAll(first, remainder...)] : [Put] of each argument in turn, each
    keyed by its class. *)
Definition PutAll (m : DataMap Data) (data_unique_ptrs : list (TypeInfo * Data))
    : DataMap Data :=
  foldl (λ acc it, Put acc it.1 it.2) m data_unique_ptrs.

(** [explicit DataMap(DATA... data_unique_ptrs)] *)
Definition DataMap_of (data_unique_ptrs : list (TypeInfo * Data)) : DataMap Data :=
  PutAll ∅ data_unique_ptrs.
End DataMapOperations.

End transform.

(* ===================================================================== *)
(** * Sample inputs                                                       *)
(* ===================================================================== *)
Module samples.
Import ast.

(** Two variable objects named [a] and one named [b]. *)
Definition var_a : Variable_ := mkVariable 1 "a" kUniform None.
Definition var_b : Variable_ := mkVariable 2 "b" kPrivate None.
Definition var_a' : Variable_ :=
  mkVariable 3 "a" kStorageBuffer (Some [BindingDeco (mkBinding 0); SetDeco (mkSet 0)]).

(** Uniform variables: fully bound (with two binding decorations), lacking
    the set decoration, undecorated; and a bound variable that is not
    uniform. *)
Definition ubo_full : Variable_ :=
  mkVariable 10 "ubo_full" kUniform
    (Some [BindingDeco (mkBinding 1); SetDeco (mkSet 0); BindingDeco (mkBinding 5)]).
Definition ubo_no_set : Variable_ :=
  mkVariable 11 "ubo_no_set" kUniform (Some [BindingDeco (mkBinding 2)]).
Definition ubo_plain : Variable_ := mkVariable 12 "ubo_plain" kUniform None.
Definition ssbo : Variable_ :=
  mkVariable 13 "ssbo" kStorageBuffer (Some [BindingDeco (mkBinding 3); SetDeco (mkSet 0)]).

Definition shader : Function :=
  foldl add_referenced_module_variable (Function_new "shader" [StageDeco kFragment])
        [ssbo; ubo_no_set; ubo_full; ubo_plain].

(** An [Expect<Source>] whose value and source differ. *)
Definition span_1_1 : wgsl.Source :=
  wgsl.mkSource None (wgsl.mkLocation 1 1) (wgsl.mkLocation 1 4).
Definition span_2_5 : wgsl.Source :=
  wgsl.mkSource None (wgsl.mkLocation 2 5) (wgsl.mkLocation 2 9).
Definition expect_span : wgsl.Expect.t wgsl.Source :=
  wgsl.Expect.of_value span_1_1 span_2_5.

(** A stand-in for [Program]: the error diagnostics it carries; valid when
    there is none.  The stand-in builder emits one IR function per declared
    name. *)
Definition SampleProgram : Type := list string * list string.
Definition sample_IsValid (p : SampleProgram) : bool := bool_decide (p.2 = []).
Definition sample_Build (p : SampleProgram) : option (list string) * list string :=
  (Some p.1, []).
Definition sample_str (d : list string) : string := String.concat "; " d.

(** Two passes over [SampleProgram]: one that never needs to run, one that
    drops the diagnostics. *)
Inductive SamplePass := NeverNeeded | DropDiagnostics.
Global Instance SamplePass_Transform : transform.Transform SampleProgram unit SamplePass :=
  λ t prog inputs outputs,
    match t with
    | NeverNeeded => (transform.SkipTransform, outputs)
    | DropDiagnostics => (Some (prog.1, []), outputs)
    end.


(** Resources of a fragment shader: textures, samplers, inputs. *)
Definition tex_sampled : Variable_ :=
  mkVariable 20 "tex_sampled" kUniformConstant (Some [SetDeco (mkSet 1); BindingDeco (mkBinding 0)]).
Definition tex_multisampled : Variable_ :=
  mkVariable 21 "tex_multisampled" kUniformConstant
    (Some [BindingDeco (mkBinding 1); SetDeco (mkSet 1)]).
Definition tex_depth : Variable_ :=
  mkVariable 22 "tex_depth" kUniformConstant (Some [BindingDeco (mkBinding 2); SetDeco (mkSet 1)]).
Definition smp : Variable_ :=
  mkVariable 23 "smp" kUniformConstant (Some [BindingDeco (mkBinding 3); SetDeco (mkSet 1)]).
Definition smp_cmp : Variable_ :=
  mkVariable 24 "smp_cmp" kUniformConstant (Some [BindingDeco (mkBinding 4); SetDeco (mkSet 1)]).
Definition frag_in : Variable_ :=
  mkVariable 30 "frag_in" kInput
    (Some [LocationDeco (ast.mkLocation 2); LocationDeco (ast.mkLocation 7)]).
Definition frag_pos : Variable_ :=
  mkVariable 31 "frag_pos" kInput (Some [BuiltinDeco kFragCoord; BuiltinDeco kPosition]).

Definition sample_unwrapped_type (var : Variable_) : UnwrappedType :=
  match object var with
  | 20 => TextureType SampledTexture
  | 21 => TextureType MultisampledTexture
  | 22 => TextureType DepthTexture
  | 23 => SamplerType kSampler
  | 24 => SamplerType kComparisonSampler
  | _ => OtherType
  end.

Definition textured_vars : list Variable_ :=
  [ssbo; tex_sampled; smp_cmp; tex_multisampled; frag_in; smp; tex_depth; frag_pos; ubo_full].

Definition textured : Function :=
  foldl add_local_referenced_module_variable
    (foldl add_referenced_module_variable
       (Function_new "textured" [WorkgroupDeco (mkWorkgroup 1 1 1); StageDeco kFragment;
                                 StageDeco kVertex])
       textured_vars)
    [frag_pos; frag_in].

(** Two data maps over string payloads. *)
Definition data_vertex_pulling : gmap positive string :=
  {[ 1%positive := "vertex pulling"; 2%positive := "binding remapper" ]}.
Definition data_other : gmap positive string :=
  {[ 2%positive := "stale remapper"; 3%positive := "first index offset" ]}.

End samples.

(* ===================================================================== *)
(** * Properties of [ast::Function]                                       *)
(* ===================================================================== *)
Section FunctionProperties.
Import ast samples.

Lemma workgroup_size_loop_none decos :
  (∀ d, d ∈ decos → As_WorkgroupDecoration d = None) →
  workgroup_size_loop decos = (1, 1, 1)%N.
Proof.
  induction decos as [|d rest IH]; intros Hnone; [done|].
  cbn. rewrite (Hnone d) by left. apply IH. intros d' Hd'. apply Hnone. by right.
Qed.

Lemma workgroup_size_loop_first pre w post :
  (∀ d, d ∈ pre → As_WorkgroupDecoration d = None) →
  workgroup_size_loop (pre ++ WorkgroupDeco w :: post) = values w.
Proof.
  induction pre as [|d pre IH]; intros Hnone; [done|].
  cbn. rewrite (Hnone d) by left. apply IH. intros d' Hd'. apply Hnone. by right.
Qed.

(** C5. [workgroup_size()] is the value triple of the first workgroup
    decoration of the function's decoration list when there is one, and
    [(1,1,1)] for a function without workgroup decoration, whatever its
    pipeline stage. *)
Theorem workgroup_size_first_or_default (f : Function) :
  (∀ pre w post,
      decorations_ f = pre ++ WorkgroupDeco w :: post →
      (∀ d, d ∈ pre → As_WorkgroupDecoration d = None) →
      workgroup_size f = (wg_x w, wg_y w, wg_z w))
  ∧ ((∀ d, d ∈ decorations_ f → As_WorkgroupDecoration d = None) →
      workgroup_size f = (1, 1, 1)%N).
Proof.
  unfold workgroup_size. split.
  - intros pre w post -> Hpre. by apply workgroup_size_loop_first.
  - apply workgroup_size_loop_none.
Qed.

Lemma workgroup_size_witness :
  workgroup_size (Function_new "main" [StageDeco kCompute; WorkgroupDeco (mkWorkgroup 8 4 2);
                                      WorkgroupDeco (mkWorkgroup 1 2 3)]) = (8, 4, 2)%N
  ∧ workgroup_size (Function_new "helper" []) = (1, 1, 1)%N
  ∧ pipeline_stage (Function_new "helper" []) = kNone.
Proof.
  split; [|split; [|reflexivity]].
  - apply (proj1 (workgroup_size_first_or_default _) [StageDeco kCompute] (mkWorkgroup 8 4 2)
             [WorkgroupDeco (mkWorkgroup 1 2 3)]); [reflexivity|].
    intros d Hd. apply list_elem_of_singleton in Hd. by subst.
  - apply (proj2 (workgroup_size_first_or_default _)).
    intros d Hd. by apply not_elem_of_nil in Hd.
Defined.

(** *** [add_referenced_module_variable] *)

Lemma name_listed_true vars var :
  name_listed vars var = true ↔ name var ∈ name <$> vars.
Proof.
  induction vars as [|v rest IH]; cbn.
  - split; [done|]. intros H. by apply not_elem_of_nil in H.
  - rewrite elem_of_cons. case_decide as Hn.
    + split; [|done]. intros _. by left.
    + rewrite IH. split; [by right|]. intros [?|?]; [congruence|done].
Qed.

Lemma name_listed_false vars var :
  name_listed vars var = false ↔ name var ∉ name <$> vars.
Proof.
  rewrite <- name_listed_true. destruct (name_listed vars var); naive_solver.
Qed.

Lemma add_referenced_vars f var :
  referenced_module_vars_ (add_referenced_module_variable f var) =
  if name_listed (referenced_module_vars_ f) var then referenced_module_vars_ f
  else referenced_module_vars_ f ++ [var].
Proof. unfold add_referenced_module_variable. by destruct (name_listed _ _). Qed.

Lemma add_preserves_NoDup f var :
  NoDup (name <$> referenced_module_vars_ f) →
  NoDup (name <$> referenced_module_vars_ (add_referenced_module_variable f var)).
Proof.
  intros Hnd. rewrite add_referenced_vars.
  destruct (name_listed _ _) eqn:Hl; [done|].
  apply name_listed_false in Hl.
  rewrite fmap_app. apply NoDup_app. split; [done|]. split.
  - intros x Hx Hx'. cbn in Hx'. apply list_elem_of_singleton in Hx'. by subst.
  - cbn. apply NoDup_singleton.
Qed.

Lemma foldl_add_NoDup vars f :
  NoDup (name <$> referenced_module_vars_ f) →
  NoDup (name <$> referenced_module_vars_ (foldl add_referenced_module_variable f vars)).
Proof.
  revert f. induction vars as [|v vars IH]; intros f Hnd; [done|].
  cbn. apply IH. by apply add_preserves_NoDup.
Qed.

Lemma foldl_add_extends vars f :
  ∃ k, referenced_module_vars_ (foldl add_referenced_module_variable f vars)
       = referenced_module_vars_ f ++ k
       ∧ k `sublist_of` vars.
Proof.
  revert f. induction vars as [|v vars IH]; intros f; cbn.
  - exists []. by rewrite app_nil_r.
  - destruct (IH (add_referenced_module_variable f v)) as (k & -> & Hk).
    rewrite add_referenced_vars. destruct (name_listed _ _).
    + exists k. split; [done|]. by apply sublist_cons.
    + exists (v :: k). rewrite <- app_assoc. split; [done|]. by apply sublist_skip.
Qed.

Lemma foldl_add_keeps_first vars f pre v post :
  vars = pre ++ v :: post →
  name v ∉ name <$> pre →
  name v ∉ name <$> referenced_module_vars_ f →
  v ∈ referenced_module_vars_ (foldl add_referenced_module_variable f vars).
Proof.
  revert f pre. induction vars as [|x vars IH]; intros f pre Hv Hpre Hf.
  - by destruct pre.
  - cbn. destruct pre as [|p pre]; cbn in Hv; injection Hv as -> ->.
    + destruct (foldl_add_extends post (add_referenced_module_variable f v)) as (k & -> & _).
      rewrite add_referenced_vars. apply name_listed_false in Hf. rewrite Hf.
      rewrite !elem_of_app, list_elem_of_singleton. by left; right.
    + rewrite fmap_cons, not_elem_of_cons in Hpre. destruct Hpre as [Hne Hpre].
      apply (IH _ pre); [done|done|].
      rewrite add_referenced_vars. destruct (name_listed _ _); [done|].
      rewrite fmap_app, elem_of_app. cbn. rewrite list_elem_of_singleton.
      intros [?|?]; [by apply Hf|by apply Hne].
Qed.

(** C9. Starting from a function whose list of referenced module
    variables is empty, after the calls
    [add_referenced_module_variable(v)] for [v] in [vars], in that order,
    the list holds no two entries of the same name, is a subsequence of
    [vars], and holds the first variable of every name; a call whose
    argument bears the name of an entry of the list changes nothing, even
    for another variable object. *)
Theorem add_referenced_module_variable_unique_ordered (f : Function) (vars : list Variable_) :
  referenced_module_vars_ f = [] →
  let l := referenced_module_vars_ (foldl add_referenced_module_variable f vars) in
  NoDup (name <$> l)
  ∧ l `sublist_of` vars
  ∧ (∀ pre v post, vars = pre ++ v :: post → name v ∉ name <$> pre → v ∈ l)
  ∧ (∀ g v var, v ∈ referenced_module_vars_ g → name v = name var →
       add_referenced_module_variable g var = g).
Proof.
  intros Hf l. repeat split.
  - apply foldl_add_NoDup. rewrite Hf. apply NoDup_nil_2.
  - destruct (foldl_add_extends vars f) as (k & Hk & Hsub).
    subst l. rewrite Hk, Hf. done.
  - intros pre v post Hv Hpre. apply (foldl_add_keeps_first vars f pre v post); [done..|].
    rewrite Hf. apply not_elem_of_nil.
  - intros g v var Hin Hname. unfold add_referenced_module_variable.
    assert (name_listed (referenced_module_vars_ g) var = true) as ->; [|done].
    apply name_listed_true. rewrite <- Hname. by apply list_elem_of_fmap_2.
Qed.

Lemma add_referenced_module_variable_witness :
  let g := foldl add_referenced_module_variable (Function_new "f" []) [var_a; var_b; var_a'] in
  referenced_module_vars_ g = [var_a; var_b]
  ∧ NoDup (name <$> referenced_module_vars_ g)
  ∧ var_a ≠ var_a'
  ∧ add_referenced_module_variable g var_a' = g.
Proof.
  intros g.
  destruct (add_referenced_module_variable_unique_ordered
              (Function_new "f" []) [var_a; var_b; var_a'] eq_refl) as (Hnd & _ & _ & Hsame).
  split; [reflexivity|]. split; [exact Hnd|]. split; [discriminate|].
  apply (Hsame g var_a var_a'); [|reflexivity].
  change (var_a ∈ [var_a; var_b]). apply list_elem_of_here.
Defined.

(** *** [referenced_uniform_variables] *)

Lemma scan_decorations_snoc decos d :
  scan_decorations (decos ++ [d]) = scan_decoration (scan_decorations decos) d.
Proof. unfold scan_decorations. by rewrite foldl_app. Qed.

(** The inner loop leaves in [binding] and [set] the last decoration of
    each kind. *)
Lemma scan_decorations_last decos :
  scan_decorations decos
  = (last (omap As_BindingDecoration decos), last (omap As_SetDecoration decos)).
Proof.
  induction decos as [|d decos IH] using rev_ind; [done|].
  rewrite scan_decorations_snoc, IH, !omap_app. unfold scan_decoration.
  destruct d; cbn; rewrite ?app_nil_r, ?last_snoc; done.
Qed.

Lemma last_omap_Some {A B} (f : A → option B) l y :
  last (omap f l) = Some y → ∃ x, x ∈ l ∧ f x = Some y.
Proof.
  intros Hl. apply last_Some_elem_of in Hl. by apply list_elem_of_omap in Hl.
Qed.

Lemma last_omap_None {A B} (f : A → option B) l :
  last (omap f l) = None ↔ ¬ Exists (λ x, is_Some (f x)) l.
Proof.
  rewrite last_None, Exists_exists. split.
  - intros Hnil (x & Hx & y & Hy).
    assert (y ∈ omap f l) as Hin by (apply list_elem_of_omap; eauto).
    rewrite Hnil in Hin. by apply not_elem_of_nil in Hin.
  - intros Hno. destruct (omap f l) as [|y k] eqn:Hk; [done|]. exfalso. apply Hno.
    assert (y ∈ omap f l) as Hin by (rewrite Hk; left).
    apply list_elem_of_omap in Hin as (x & Hx & Hy). eauto.
Qed.

Lemma uniform_step_entry ret var :
  uniform_step ret var = ret ++ option_list (uniform_entry var).
Proof.
  unfold uniform_entry, uniform_step.
  destruct (negb _); [by rewrite app_nil_r|].
  destruct (As_DecoratedVariable var) as [decos|]; [|by rewrite app_nil_r].
  destruct (scan_decorations decos) as [[b|] [s|]]; cbn; by rewrite ?app_nil_r.
Qed.

Lemma uniform_entry_Some var entry :
  uniform_entry var = Some entry →
  entry.1 = var ∧ storage_class var = kUniform
  ∧ ∃ decos, decorated var = Some decos
      ∧ last (omap As_BindingDecoration decos) = Some (binding entry.2)
      ∧ last (omap As_SetDecoration decos) = Some (set entry.2).
Proof.
  unfold uniform_entry, uniform_step, As_DecoratedVariable.
  case_bool_decide as Hsc; cbn; [|done].
  destruct (decorated var) as [decos|]; [|done].
  rewrite scan_decorations_last.
  destruct (last (omap As_BindingDecoration decos)) as [b|] eqn:Eb; [|done].
  destruct (last (omap As_SetDecoration decos)) as [s|] eqn:Es; [|done].
  cbn. intros [= <-]. cbn. eauto 10.
Qed.

Lemma uniform_entry_is_Some var :
  is_Some (uniform_entry var) ↔ uniform_with_binding var.
Proof.
  unfold uniform_with_binding, carries_binding_and_set. split.
  - intros [entry Hentry]. apply uniform_entry_Some in Hentry
      as (_ & Hsc & decos & -> & Hb & Hs). split; [done|].
    split; apply dec_stable; rewrite <- last_omap_None; congruence.
  - intros [Hsc Hboth]. unfold uniform_entry, uniform_step, As_DecoratedVariable.
    rewrite bool_decide_eq_true_2 by done. cbn.
    destruct (decorated var) as [decos|]; [|done]. destruct Hboth as [Hb Hs].
    rewrite scan_decorations_last.
    destruct (last (omap As_BindingDecoration decos)) as [b|] eqn:Eb;
      [|by apply last_omap_None in Eb].
    destruct (last (omap As_SetDecoration decos)) as [s|] eqn:Es;
      [|by apply last_omap_None in Es].
    cbn. eauto.
Qed.

Lemma foldl_uniform_step vars ret :
  foldl uniform_step ret vars = ret ++ omap uniform_entry vars.
Proof.
  revert ret. induction vars as [|v vars IH]; intros ret; cbn.
  - by rewrite app_nil_r.
  - rewrite IH, uniform_step_entry. destruct (uniform_entry v); cbn.
    + by rewrite <- app_assoc.
    + by rewrite app_nil_r.
Qed.

Lemma omap_uniform_entry_fst vars :
  (omap uniform_entry vars).*1 = filter uniform_with_binding vars.
Proof.
  induction vars as [|v vars IH]; [done|]. cbn -[filter].
  destruct (uniform_entry v) as [entry|] eqn:Hentry.
  - rewrite filter_cons_True by (apply uniform_entry_is_Some; eauto).
    apply uniform_entry_Some in Hentry as (<- & _). cbn. by rewrite IH.
  - rewrite filter_cons_False; [done|].
    intros Hq. apply uniform_entry_is_Some in Hq as [? Hq]. congruence.
Qed.

(** C7. The variables returned by [referenced_uniform_variables()] are,
    in order, exactly the referenced module-scope variables of storage
    class uniform that are decorated variables with a binding and a set
    decoration; each is paired with a binding decoration and a set
    decoration of its own list (the last of each kind); a referenced
    uniform variable lacking one of the two is not returned. *)
Theorem referenced_uniform_variables_exact (f : Function) :
  (referenced_uniform_variables f).*1
    = filter uniform_with_binding (referenced_module_variables f)
  ∧ (∀ var info, (var, info) ∈ referenced_uniform_variables f →
       ∃ decos, decorated var = Some decos
         ∧ BindingDeco (binding info) ∈ decos ∧ SetDeco (set info) ∈ decos
         ∧ last (omap As_BindingDecoration decos) = Some (binding info)
         ∧ last (omap As_SetDecoration decos) = Some (set info))
  ∧ (∀ var, var ∈ referenced_module_variables f → storage_class var = kUniform →
       ¬ carries_binding_and_set var →
       var ∉ (referenced_uniform_variables f).*1).
Proof.
  unfold referenced_uniform_variables.
  rewrite foldl_uniform_step, app_nil_l, omap_uniform_entry_fst. split; [done|]. split.
  - intros var info Hin. apply list_elem_of_omap in Hin as (v & _ & Hentry).
    apply uniform_entry_Some in Hentry as (Hv & _ & decos & Hd & Hb & Hs).
    cbn in *. subst v. exists decos. split; [done|].
    destruct (last_omap_Some _ _ _ Hb) as (db & Hdb & Edb).
    destruct (last_omap_Some _ _ _ Hs) as (ds & Hds & Eds).
    destruct db; try done. destruct ds; try done. cbn in *.
    injection Edb as ->. injection Eds as ->. done.
  - intros var _ _ Hmissing Hin. apply list_elem_of_filter in Hin as [[_ Hq] _]. done.
Qed.

Lemma referenced_uniform_variables_witness :
  (referenced_uniform_variables shader
     = [(ubo_full, {| binding := mkBinding 5; set := mkSet 0 |})])
  ∧ (∃ decos, decorated ubo_full = Some decos
       ∧ BindingDeco (mkBinding 5) ∈ decos ∧ SetDeco (mkSet 0) ∈ decos)
  ∧ (ubo_no_set ∉ fst <$> referenced_uniform_variables shader)
  ∧ (ubo_plain ∉ fst <$> referenced_uniform_variables shader).
Proof.
  destruct (referenced_uniform_variables_exact shader) as (_ & Hinfo & Homit).
  split; [reflexivity|]. split; [|split].
  - destruct (Hinfo ubo_full {| binding := mkBinding 5; set := mkSet 0 |})
      as (decos & Hd & Hb & Hs & _); [apply list_elem_of_here|]. eauto.
  - apply Homit; [|reflexivity|].
    + change (ubo_no_set ∈ [ssbo; ubo_no_set; ubo_full; ubo_plain]).
      apply list_elem_of_further, list_elem_of_here.
    + apply (proj1 (bool_decide_eq_false _)). reflexivity.
  - apply Homit; [|reflexivity|].
    + change (ubo_plain ∈ [ssbo; ubo_no_set; ubo_full; ubo_plain]).
      do 3 apply list_elem_of_further. apply list_elem_of_here.
    + intros [].
Defined.
End FunctionProperties.

(* ===================================================================== *)
(** * Properties of the parser results and of [continue_parsing]          *)
(* ===================================================================== *)
Section ParserProperties.
Import wgsl samples.

Lemma in_state_unique {T} (m : Maybe.t T) o o' : Maybe.in_state m o → Maybe.in_state m o' → o' = o.
Proof.
  unfold Maybe.in_state, Maybe.is_matched, Maybe.is_no_match, Maybe.is_errored.
  destruct o, o'; intros [? ?] [? ?]; congruence.
Qed.

Lemma in_state_flags {T} (m : Maybe.t T) :
  Maybe.errored m && Maybe.matched m = false → ∃ o, Maybe.in_state m o.
Proof.
  unfold Maybe.in_state, Maybe.is_matched, Maybe.is_no_match, Maybe.is_errored.
  destruct (Maybe.errored m) eqn:He, (Maybe.matched m) eqn:Hm; intros H; try done.
  - by exists Maybe.Errored.
  - by exists Maybe.Matched.
  - by exists Maybe.NoMatch.
Qed.

Lemma constructed_flags {T} `{!ValueInit T} (m : Maybe.t T) :
  Maybe.constructed m → Maybe.errored m && Maybe.matched m = false.
Proof.
  intros [U ? val s| | |U ? ? e|U ? e]; cbn; try done; by destruct (Expect.errored e).
Qed.

(** C2. A [Maybe<T>] produced by any of its constructors is in exactly one
    of the states matched (matched, not errored), no-match (neither) and
    errored (errored, not matched); built from an [Expect], by copy or by
    move, it has [matched] set exactly when the [Expect] is not errored. *)
Theorem Maybe_three_states (T : Type) `{!ValueInit T} :
  (∀ m : Maybe.t T, Maybe.constructed m →
     ∃ o, Maybe.in_state m o ∧ ∀ o', Maybe.in_state m o' → o' = o)
  ∧ (∀ U `{!ConstructFrom U T} `{!ConstructFrom U Source} (e : Expect.t U),
       Maybe.matched (Maybe.of_expect_copy (T:=T) e) = true ↔ Expect.errored e = false)
  ∧ (∀ U `{!ConstructFrom U T} (e : Expect.t U),
       Maybe.matched (Maybe.of_expect_move (T:=T) e) = true ↔ Expect.errored e = false).
Proof.
  split; [|split].
  - intros m Hm. destruct (in_state_flags m (constructed_flags m Hm)) as [o Ho].
    exists o. split; [done|]. intros o'. by apply in_state_unique.
  - intros U ? ? e. cbn. by destruct (Expect.errored e).
  - intros U ? e. cbn. by destruct (Expect.errored e).
Qed.

Lemma Maybe_three_states_witness :
  Maybe.in_state (Maybe.of_expect_move (T:=N) (Expect.of_errored (T:=N))) Maybe.Errored
  ∧ Maybe.in_state (Maybe.of_value (T:=N) 7%N Source_default) Maybe.Matched
  ∧ Maybe.in_state (Maybe.of_no_match (T:=N)) Maybe.NoMatch.
Proof.
  destruct (Maybe_three_states N) as (Hstate & _ & _).
  split; [|split].
  - destruct (Hstate _ (Maybe.by_expect_move N (Expect.of_errored (T:=N)))) as (o & Ho & _).
    destruct o; [destruct Ho; discriminate| destruct Ho; discriminate | exact Ho].
  - destruct (Hstate _ (Maybe.by_value N 7%N Source_default)) as (o & Ho & _).
    destruct o; [exact Ho | destruct Ho; discriminate | destruct Ho; discriminate].
  - destruct (Hstate _ Maybe.by_no_match) as (o & Ho & _).
    destruct o; [destruct Ho; discriminate | exact Ho | destruct Ho; discriminate].
Defined.

(** C4. [continue_parsing()] holds exactly when the parser is synchronized
    and fewer errors than [max_errors_] have been reported; [max_errors_]
    is 25 unless changed; with the error count at or above the limit
    [continue_parsing()] is false. *)
Theorem continue_parsing_below_limit :
  (∀ p, continue_parsing p = true ↔
          synchronized_ p = true ∧ (error_count p < max_errors_ p)%N)
  ∧ max_errors_ ParserImpl_new = 25%N
  ∧ (∀ p, (max_errors_ p ≤ error_count p)%N → continue_parsing p = false).
Proof.
  unfold continue_parsing. split; [|split].
  - intros p. by rewrite andb_true_iff, bool_decide_eq_true.
  - reflexivity.
  - intros p Hle. rewrite (bool_decide_eq_false_2 _) by lia. apply andb_false_r.
Qed.

Lemma continue_parsing_witness :
  continue_parsing (mkParserImpl 0 0 true 0 0 24 25) = true
  ∧ continue_parsing (mkParserImpl 0 0 true 0 0 25 25) = false
  ∧ continue_parsing ParserImpl_new = true.
Proof.
  destruct continue_parsing_below_limit as (Hiff & _ & Hstop).
  split; [|split].
  - apply Hiff. split; [reflexivity|]. cbn. lia.
  - apply Hstop. cbn. lia.
  - apply Hiff. split; [reflexivity|]. cbn. lia.
Defined.

(** The move conversion keeps value, source and errored flag; the copy
    conversion keeps value and errored flag. *)
Lemma Maybe_of_expect_move_fields {U T} `{!ConstructFrom U T} (e : Expect.t U) :
  Maybe.value (Maybe.of_expect_move (T:=T) e) = construct (Expect.value e)
  ∧ Maybe.source (Maybe.of_expect_move (T:=T) e) = Expect.source e
  ∧ Maybe.errored (Maybe.of_expect_move (T:=T) e) = Expect.errored e
  ∧ Maybe.matched (Maybe.of_expect_move (T:=T) e) = negb (Expect.errored e).
Proof. done. Qed.

Lemma Maybe_of_expect_copy_fields {U T} `{!ConstructFrom U T} `{!ConstructFrom U Source}
    (e : Expect.t U) :
  Maybe.value (Maybe.of_expect_copy (T:=T) e) = construct (Expect.value e)
  ∧ Maybe.source (Maybe.of_expect_copy (T:=T) e) = construct (Expect.value e)
  ∧ Maybe.errored (Maybe.of_expect_copy (T:=T) e) = Expect.errored e
  ∧ Maybe.matched (Maybe.of_expect_copy (T:=T) e) = negb (Expect.errored e).
Proof. done. Qed.

(** C10. The copy conversion of the [Expect<Source>] holding the value
    [1:1-1:4] found at [2:5-2:9] yields a [Maybe<Source>] whose source is
    the value [1:1-1:4], not the source [2:5-2:9] of the [Expect]; the
    move conversion of the same [Expect] keeps its source. *)
Theorem Maybe_of_expect_copy_source_from_value :
  Maybe.source (Maybe.of_expect_copy (T:=Source) expect_span) = span_1_1
  ∧ Maybe.source (Maybe.of_expect_copy (T:=Source) expect_span) ≠ Expect.source expect_span
  ∧ Maybe.source (Maybe.of_expect_move (T:=Source) expect_span) = Expect.source expect_span.
Proof. split; [reflexivity|]. split; [discriminate|reflexivity]. Qed.
End ParserProperties.

(* ===================================================================== *)
(** * Properties of the IR conversion and of the def-use lists            *)
(* ===================================================================== *)
Section ConverterProperties.
Import ir.
Context {Program IRModule diag_List : Type}.
Variable IsValid : Program → bool.
Variable Build : Program → option IRModule * diag_List.
Variable str : diag_List → string.

(** C1. On a program that is not valid [FromProgram] returns the failure
    "input program is not valid" without constructing or running a
    builder; it returns a module only for a valid program. *)
Theorem FromProgram_requires_valid_program (program : Program) :
  (IsValid program = false →
     FromProgram IsValid Build str program
     = {| result := Failure "input program is not valid"; builders_run := [] |})
  ∧ (∀ m, result (FromProgram IsValid Build str program) = Success m →
       IsValid program = true).
Proof.
  unfold FromProgram. split.
  - by intros ->.
  - intros m. by destruct (IsValid program).
Qed.
End ConverterProperties.

Section ConverterWitness.
Import ir samples.

Lemma FromProgram_witness :
  FromProgram sample_IsValid sample_Build sample_str (["main"], ["type mismatch"])
    = {| result := Failure "input program is not valid"; builders_run := [] |}
  ∧ sample_IsValid (["main"], []) = true.
Proof.
  split.
  - apply (proj1 (FromProgram_requires_valid_program
                    sample_IsValid sample_Build sample_str (["main"], ["type mismatch"]))).
    reflexivity.
  - apply (proj2 (FromProgram_requires_valid_program
                    sample_IsValid sample_Build sample_str (["main"], [])) ["main"]).
    reflexivity.
Defined.
End ConverterWitness.

Section DefUse.
Import ir.

Lemma Usage_Constant b c v : Usage (Constant b c).1 v = Usage b v.
Proof.
  unfold Usage. cbn. destruct (decide (v < length (values (ir b)))) as [Hlt|Hge].
  - by rewrite lookup_app_l.
  - rewrite (lookup_ge_None_2 (values (ir b))) by lia.
    destruct (decide (v = length (values (ir b)))) as [->|Hne].
    + by rewrite list_lookup_middle.
    + rewrite lookup_ge_None_2; [done|]. rewrite length_app. cbn. lia.
Qed.

Lemma has_operand_Constant b c inst v :
  has_operand (Constant b c).1 inst v ↔ has_operand b inst v.
Proof.
  unfold has_operand. cbn. destruct (decide (inst < length (values (ir b)))) as [Hlt|Hge].
  - by rewrite lookup_app_l.
  - rewrite (lookup_ge_None_2 (values (ir b))) by lia.
    destruct (decide (inst = length (values (ir b)))) as [->|Hne].
    + rewrite list_lookup_middle by done. cbn.
      split; [by intros (n & [= <-] & ?)|by intros (n & ? & _)].
    + rewrite lookup_ge_None_2; [done|]. rewrite length_app. cbn. lia.
Qed.

Lemma lookup_snoc_alter {A} (f : A → A) (l : list A) i x :
  (alter f i l ++ [x]) !! length l = Some x.
Proof. rewrite <- (length_alter f l i). by apply list_lookup_middle. Qed.

Lemma Usage_CreateUnary b kind type val v :
  val < length (values (ir b)) →
  Usage (CreateUnary b kind type val).1 v
  = if decide (v = val) then Usage b val ++ [(CreateUnary b kind type val).2]
    else Usage b v.
Proof.
  intros Hval. unfold Usage. cbn.
  destruct (decide (v < length (values (ir b)))) as [Hlt|Hge].
  - rewrite lookup_app_l by (by rewrite length_alter).
    case_decide as Hv.
    + subst v. rewrite list_lookup_alter_eq.
      destruct (values (ir b) !! val) as [x|] eqn:Hx; [done|].
      apply lookup_ge_None in Hx. lia.
    + by rewrite list_lookup_alter_ne.
  - rewrite decide_False by lia.
    rewrite (lookup_ge_None_2 (values (ir b))) by lia.
    destruct (decide (v = length (values (ir b)))) as [->|Hne].
    + by rewrite lookup_snoc_alter.
    + rewrite lookup_ge_None_2; [done|]. rewrite length_app, length_alter. cbn. lia.
Qed.

Lemma has_operand_CreateUnary b kind type val i v :
  has_operand (CreateUnary b kind type val).1 i v
  ↔ has_operand b i v ∨ (i = (CreateUnary b kind type val).2 ∧ v = val).
Proof.
  unfold has_operand. cbn. destruct (decide (i < length (values (ir b)))) as [Hlt|Hge].
  - rewrite lookup_app_l by (by rewrite length_alter).
    assert (node <$> alter (AddUsage (length (values (ir b)))) val (values (ir b)) !! i
            = node <$> values (ir b) !! i) as ->.
    { destruct (decide (i = val)) as [->|Hne].
      - rewrite list_lookup_alter_eq. by destruct (values (ir b) !! val).
      - by rewrite list_lookup_alter_ne. }
    split; [by left|]. intros [?|[-> _]]; [done|lia].
  - rewrite (lookup_ge_None_2 (values (ir b))) by lia.
    destruct (decide (i = length (values (ir b)))) as [->|Hne].
    + rewrite lookup_snoc_alter. cbn. split.
      * intros (n & [= <-] & [= <-]). by right.
      * intros [(n & Hn & _)|[_ ->]]; [done|]. eauto.
    + rewrite lookup_ge_None_2 by (rewrite length_app, length_alter; cbn; lia).
      cbn. split; [by intros (n & ? & _)|]. intros [(n & ? & _)|[? _]]; [done|lia].
Qed.

Lemma has_operand_lt b inst v : has_operand b inst v → inst < length (values (ir b)).
Proof.
  intros (n & Hn & _). apply fmap_Some in Hn as (x & Hx & _).
  by apply lookup_lt_Some in Hx.
Qed.

Lemma reachable_def_use b :
  reachable b →
  ∀ v, NoDup (Usage b v) ∧ ∀ inst, inst ∈ Usage b v ↔ has_operand b inst v.
Proof.
  induction 1 as [|b c Hb IH|b kind type val Hb IH Hval]; intros v.
  - split; [apply NoDup_nil_2|]. intros inst. unfold Usage, has_operand. cbn. split.
    + by intros ?%not_elem_of_nil.
    + by intros (n & ? & _).
  - rewrite Usage_Constant. split; [apply IH|]. intros inst.
    rewrite has_operand_Constant. apply IH.
  - rewrite (Usage_CreateUnary _ _ _ _ v Hval).
    split.
    + case_decide; [|apply IH]. apply NoDup_app. split; [apply IH|]. split.
      * intros i Hi ->%list_elem_of_singleton.
        apply IH, has_operand_lt in Hi. cbn in Hi. lia.
      * apply NoDup_singleton.
    + intros i. rewrite (has_operand_CreateUnary _ _ _ _ i v).
      case_decide as Hv.
      * subst v. rewrite elem_of_app, list_elem_of_singleton.
        rewrite (proj2 (IH val)).
        split; (intros [?|?]; [by left|right]); [done|tauto].
      * rewrite (proj2 (IH v)). split; [by left|]. by intros [?|[_ ?]].
Qed.

(** C3. In every module built from constants and unary instructions, the
    use-list of each value holds, without repetition, exactly the
    instructions that have the value as operand; creating a unary
    instruction over a value of the module that nothing uses yet leaves
    that value with the use-list made of this one instruction. *)
Theorem def_use_consistency (b : Builder) :
  reachable b →
  (∀ v, NoDup (Usage b v) ∧ ∀ inst, inst ∈ Usage b v ↔ has_operand b inst v)
  ∧ (∀ kind type v,
       v < length (values (ir b)) → Usage b v = [] →
       Usage (CreateUnary b kind type v).1 v = [(CreateUnary b kind type v).2]
       ∧ has_operand (CreateUnary b kind type v).1 (CreateUnary b kind type v).2 v).
Proof.
  intros Hb. split; [by apply reachable_def_use|].
  intros kind type v Hv Hunused.
  rewrite (Usage_CreateUnary _ _ _ _ v Hv), decide_True, Hunused by done.
  split; [done|]. apply has_operand_CreateUnary. by right.
Qed.

(** The scenario of the unit test [Unary_Usage]. *)
Lemma def_use_consistency_witness :
  let four := (Constant Builder_new 4).2 in
  let created := Negation (Constant Builder_new 4).1 I32 four in
  length (Usage created.1 four) = 1
  ∧ Usage created.1 four !! 0 = Some created.2
  ∧ has_operand created.1 created.2 four.
Proof.
  intros four created.
  destruct (def_use_consistency (Constant Builder_new 4).1
              (reach_Constant _ 4 reach_new)) as [_ Hnew].
  destruct (Hnew Unary.kNegation I32 four (Nat.lt_0_succ 0) eq_refl) as [Huse Hop].
  split; [exact (f_equal length Huse)|].
  split; [exact (f_equal (λ l, l !! 0) Huse)|exact Hop].
Defined.

(** C3, as first stated without the condition that nothing uses the value
    yet: a second unary instruction over the constant of the unit test
    leaves the constant with two users, not with the new instruction
    alone. *)
Lemma unary_over_used_value_counterexample :
  ¬ (∀ b kind type v,
       reachable b → v < length (values (ir b)) →
       Usage (CreateUnary b kind type v).1 v = [(CreateUnary b kind type v).2]).
Proof.
  intros Hclaim.
  specialize (Hclaim (Negation (Constant Builder_new 4).1 I32 0).1 Unary.kNot I32 0).
  assert (Usage (CreateUnary (Negation (Constant Builder_new 4).1 I32 0).1
                   Unary.kNot I32 0).1 0 = [1; 2]) as Htwo by reflexivity.
  rewrite Hclaim in Htwo; [discriminate| |cbn; lia].
  apply reach_CreateUnary; [apply reach_Constant, reach_new|cbn; lia].
Qed.
End DefUse.

(* ===================================================================== *)
(** * Properties of the transform interface                               *)
(* ===================================================================== *)
Section TransformProperties.
Import transform.
Context {Program Data T : Type} `{!Transform Program Data T}.
Variable Clone : Program → Program.

(** C6. [Apply] yields a program or the skip value [SkipTransform]
    ([std::nullopt]); the program of [Run]'s output is the one [Apply]
    produced when there is one, and a clone of the input program when
    [Apply] signalled a skip. *)
Theorem Run_applied_or_clone (t : T) (prog : Program) (inputs : DataMap Data) :
  ((∃ p, (Apply t prog inputs ∅).1 = Some p) ∨ (Apply t prog inputs ∅).1 = SkipTransform)
  ∧ (∀ p, (Apply t prog inputs ∅).1 = Some p → program (Run Clone t prog inputs) = p)
  ∧ ((Apply t prog inputs ∅).1 = SkipTransform →
       program (Run Clone t prog inputs) = Clone prog).
Proof.
  unfold Run, SkipTransform. destruct (Apply t prog inputs ∅) as [[p|] outputs]; cbn.
  - split; [eauto|]. split; [by intros ? [= <-]|done].
  - split; [by right|]. split; [done|done].
Qed.
End TransformProperties.

Section TransformWitness.
Import transform samples.

Lemma Run_applied_or_clone_witness :
  program (Run id DropDiagnostics (["main"], ["unused variable"]) ∅) = (["main"], [])
  ∧ program (Run id NeverNeeded (["main"], ["unused variable"]) ∅)
    = (["main"], ["unused variable"]).
Proof.
  split.
  - apply (proj1 (proj2 (Run_applied_or_clone id DropDiagnostics _ ∅))). reflexivity.
  - apply (proj2 (proj2 (Run_applied_or_clone id NeverNeeded _ ∅))). reflexivity.
Defined.
End TransformWitness.

(* ===================================================================== *)
(** * Further properties of [ast::Function]: the binding queries          *)
(* ===================================================================== *)
Section BindingQueries.
Import ast.

Lemma binding_step_entry keep ret var :
  binding_step keep ret var = ret ++ option_list (binding_entry keep var).
Proof.
  unfold binding_entry, binding_step.
  destruct (negb _); [by rewrite app_nil_r|].
  destruct (As_DecoratedVariable var) as [decos|]; [|by rewrite app_nil_r].
  destruct (scan_decorations decos) as [[b|] [s|]]; cbn; by rewrite ?app_nil_r.
Qed.

Lemma binding_entry_Some keep var entry :
  binding_entry keep var = Some entry →
  entry.1 = var ∧ keep var = true
  ∧ ∃ decos, decorated var = Some decos
      ∧ last (omap As_BindingDecoration decos) = Some (binding entry.2)
      ∧ last (omap As_SetDecoration decos) = Some (set entry.2).
Proof.
  unfold binding_entry, binding_step, As_DecoratedVariable.
  destruct (keep var); cbn; [|done].
  destruct (decorated var) as [decos|]; [|done].
  rewrite scan_decorations_last.
  destruct (last (omap As_BindingDecoration decos)) as [b|] eqn:Eb; [|done].
  destruct (last (omap As_SetDecoration decos)) as [s|] eqn:Es; [|done].
  cbn. intros [= <-]. cbn. eauto 10.
Qed.

Lemma binding_entry_is_Some keep var :
  is_Some (binding_entry keep var) ↔ keep var = true ∧ carries_binding_and_set var.
Proof.
  unfold carries_binding_and_set. split.
  - intros [entry Hentry]. apply binding_entry_Some in Hentry
      as (_ & Hkeep & decos & -> & Hb & Hs). split; [done|].
    split; apply dec_stable; rewrite <- last_omap_None; congruence.
  - intros [Hkeep Hboth]. unfold binding_entry, binding_step, As_DecoratedVariable.
    rewrite Hkeep. cbn.
    destruct (decorated var) as [decos|]; [|done]. destruct Hboth as [Hb Hs].
    rewrite scan_decorations_last.
    destruct (last (omap As_BindingDecoration decos)) as [b|] eqn:Eb;
      [|by apply last_omap_None in Eb].
    destruct (last (omap As_SetDecoration decos)) as [s|] eqn:Es;
      [|by apply last_omap_None in Es].
    cbn. eauto.
Qed.

Lemma foldl_binding_step keep vars ret :
  foldl (binding_step keep) ret vars = ret ++ omap (binding_entry keep) vars.
Proof.
  revert ret. induction vars as [|v vars IH]; intros ret; cbn.
  - by rewrite app_nil_r.
  - rewrite IH, binding_step_entry. destruct (binding_entry keep v); cbn.
    + by rewrite <- app_assoc.
    + by rewrite app_nil_r.
Qed.

Lemma omap_binding_entry_fst keep vars :
  (omap (binding_entry keep) vars).*1
  = filter (λ v, keep v = true ∧ carries_binding_and_set v) vars.
Proof.
  induction vars as [|v vars IH]; [done|]. cbn -[filter].
  destruct (binding_entry keep v) as [entry|] eqn:Hentry.
  - rewrite filter_cons_True by (apply binding_entry_is_Some; eauto).
    apply binding_entry_Some in Hentry as (<- & _). cbn. by rewrite IH.
  - rewrite filter_cons_False; [done|].
    intros Hq. apply binding_entry_is_Some in Hq as [? Hq]. congruence.
Qed.

(** What every query of the [binding_step] shape returns. *)
Lemma binding_query keep vars :
  (foldl (binding_step keep) [] vars).*1
    = filter (λ v, keep v = true ∧ carries_binding_and_set v) vars
  ∧ (∀ var info, (var, info) ∈ foldl (binding_step keep) [] vars →
       ∃ decos, decorated var = Some decos
         ∧ last (omap As_BindingDecoration decos) = Some (binding info)
         ∧ last (omap As_SetDecoration decos) = Some (set info)).
Proof.
  rewrite foldl_binding_step, app_nil_l, omap_binding_entry_fst. split; [done|].
  intros var info Hin. apply list_elem_of_omap in Hin as (v & _ & Hentry).
  apply binding_entry_Some in Hentry as (Hv & _ & decos & Hd & Hb & Hs).
  cbn in *. subst v. eauto.
Qed.

Lemma filter_ext_iff {A} (P Q : A → Prop) `{!∀ x, Decision (P x)} `{!∀ x, Decision (Q x)}
    (l : list A) :
  (∀ x, P x ↔ Q x) → filter P l = filter Q l.
Proof.
  intros HPQ. induction l as [|x l IH]; [done|].
  rewrite !filter_cons, IH. destruct (decide (P x)) as [HP|HP], (decide (Q x)) as [HQ|HQ];
    try done; exfalso; [apply HQ|apply HP]; by apply HPQ.
Qed.

(** The inner loop of the sampler query, with its two independent [if]s,
    finds what the [if ... else if] loop of the other queries finds. *)
Lemma scan_decoration_sampler_eq st deco :
  scan_decoration_sampler st deco = scan_decoration st deco.
Proof. unfold scan_decoration_sampler, scan_decoration. by destruct deco, st. Qed.

Lemma scan_decorations_sampler_eq decos :
  scan_decorations_sampler decos = scan_decorations decos.
Proof.
  unfold scan_decorations_sampler, scan_decorations. generalize (@None BindingDecoration, @None SetDecoration).
  induction decos as [|d decos IH]; intros st; [done|].
  cbn. rewrite scan_decoration_sampler_eq. apply IH.
Qed.

Lemma storagebuffer_step_shape :
  storagebuffer_step = binding_step (λ var, bool_decide (storage_class var = kStorageBuffer)).
Proof. reflexivity. Qed.

Lemma uniform_step_shape :
  uniform_step = binding_step (λ var, bool_decide (storage_class var = kUniform)).
Proof. reflexivity. Qed.

(** X1. [referenced_storagebuffer_variables()] returns, in order, exactly
    the referenced variables of storage class storage-buffer that are
    decorated with a binding and a set decoration, each with the last
    binding and the last set decoration of its list. *)
Theorem referenced_storagebuffer_variables_exact (f : Function) :
  (referenced_storagebuffer_variables f).*1
    = filter (λ v, storage_class v = kStorageBuffer ∧ carries_binding_and_set v)
             (referenced_module_variables f)
  ∧ (∀ var info, (var, info) ∈ referenced_storagebuffer_variables f →
       ∃ decos, decorated var = Some decos
         ∧ last (omap As_BindingDecoration decos) = Some (binding info)
         ∧ last (omap As_SetDecoration decos) = Some (set info)).
Proof.
  unfold referenced_storagebuffer_variables. rewrite storagebuffer_step_shape.
  destruct (binding_query (λ var, bool_decide (storage_class var = kStorageBuffer))
              (referenced_module_variables f)) as [Hfst Hinfo].
  split; [|done]. rewrite Hfst. apply filter_ext_iff. intros v.
  by rewrite bool_decide_eq_true.
Qed.

(** X2. No variable is returned both by [referenced_uniform_variables()]
    and by [referenced_storagebuffer_variables()]. *)
Theorem uniform_and_storagebuffer_disjoint (f : Function) (var : Variable_) :
  var ∈ (referenced_uniform_variables f).*1 →
  var ∉ (referenced_storagebuffer_variables f).*1.
Proof.
  unfold referenced_uniform_variables, referenced_storagebuffer_variables.
  rewrite uniform_step_shape, storagebuffer_step_shape.
  rewrite (proj1 (binding_query _ _)), (proj1 (binding_query _ _)).
  rewrite !list_elem_of_filter, !bool_decide_eq_true.
  intros [[Hu _] _] [[Hs _] _]. congruence.
Qed.

Lemma foldl_pointwise {A B} (f g : A → B → A) (l : list B) (a : A) :
  (∀ a x, f a x = g a x) → foldl f a l = foldl g a l.
Proof.
  intros Hfg. revert a. induction l as [|x l IH]; intros a; [done|].
  cbn. by rewrite Hfg, IH.
Qed.

Section Typed.
Variable unwrapped_type : Variable_ → UnwrappedType.

Lemma sampler_step_shape kind ret var :
  sampler_step unwrapped_type kind ret var
  = binding_step (λ var, bool_decide (unwrapped_type var = SamplerType kind)) ret var.
Proof.
  unfold sampler_step, binding_step, As_DecoratedVariable.
  destruct (unwrapped_type var) as [k| |]; cbn; try done.
  destruct (decide (k = kind)) as [->|Hne].
  - rewrite !bool_decide_eq_true_2 by done. cbn.
    destruct (decorated var) as [decos|]; [|done].
    by rewrite scan_decorations_sampler_eq.
  - rewrite !bool_decide_eq_false_2; [done|congruence|done].
Qed.

Lemma texture_step_shape multisampled ret var :
  texture_step unwrapped_type multisampled ret var
  = binding_step
      (λ var, bool_decide (unwrapped_type var
                           = TextureType (if multisampled then MultisampledTexture
                                          else SampledTexture))) ret var.
Proof.
  unfold texture_step, binding_step.
  destruct (unwrapped_type var) as [|t|]; cbn; try done.
  destruct multisampled, t; cbn; done.
Qed.

(** X3. [ReferencedSamplerVariablesImpl(kind)] returns, in order, exactly
    the referenced variables whose unwrapped type is a sampler of that
    kind and that are decorated with a binding and a set decoration, each
    with the last binding and the last set decoration of its list. *)
Theorem ReferencedSamplerVariablesImpl_exact (f : Function) (kind : SamplerKind) :
  (ReferencedSamplerVariablesImpl unwrapped_type f kind).*1
    = filter (λ v, unwrapped_type v = SamplerType kind ∧ carries_binding_and_set v)
             (referenced_module_variables f)
  ∧ (∀ var info, (var, info) ∈ ReferencedSamplerVariablesImpl unwrapped_type f kind →
       ∃ decos, decorated var = Some decos
         ∧ last (omap As_BindingDecoration decos) = Some (binding info)
         ∧ last (omap As_SetDecoration decos) = Some (set info)).
Proof.
  unfold ReferencedSamplerVariablesImpl.
  rewrite (foldl_pointwise _ _ _ _ (sampler_step_shape kind)).
  destruct (binding_query (λ var, bool_decide (unwrapped_type var = SamplerType kind))
              (referenced_module_variables f)) as [Hfst Hinfo].
  split; [|done]. rewrite Hfst. apply filter_ext_iff. intros v.
  by rewrite bool_decide_eq_true.
Qed.

(** X4. No variable is returned both by [referenced_sampler_variables()]
    and by [referenced_comparison_sampler_variables()]. *)
Theorem sampler_and_comparison_sampler_disjoint (f : Function) (var : Variable_) :
  var ∈ (referenced_sampler_variables unwrapped_type f).*1 →
  var ∉ (referenced_comparison_sampler_variables unwrapped_type f).*1.
Proof.
  unfold referenced_sampler_variables, referenced_comparison_sampler_variables,
    ReferencedSamplerVariablesImpl.
  rewrite !(foldl_pointwise _ _ _ _ (sampler_step_shape _)).
  rewrite (proj1 (binding_query _ _)), (proj1 (binding_query _ _)).
  rewrite !list_elem_of_filter, !bool_decide_eq_true.
  intros [[Hu _] _] [[Hs _] _]. congruence.
Qed.

(** X5. [ReferencedSampledTextureVariablesImpl(multisampled)] returns, in
    order, exactly the referenced variables decorated with a binding and a
    set decoration whose unwrapped type is a multisampled texture (for
    [true]) or a sampled texture (for [false]); textures of the other
    classes are never returned, and the two results share no variable. *)
Theorem ReferencedSampledTextureVariablesImpl_exact (f : Function) :
  (∀ multisampled,
     (ReferencedSampledTextureVariablesImpl unwrapped_type f multisampled).*1
     = filter (λ v, unwrapped_type v
                    = TextureType (if multisampled then MultisampledTexture
                                   else SampledTexture)
                    ∧ carries_binding_and_set v)
              (referenced_module_variables f))
  ∧ (∀ var, var ∈ (referenced_sampled_texture_variables unwrapped_type f).*1 →
       var ∉ (referenced_multisampled_texture_variables unwrapped_type f).*1).
Proof.
  assert (∀ multisampled,
     (ReferencedSampledTextureVariablesImpl unwrapped_type f multisampled).*1
     = filter (λ v, unwrapped_type v
                    = TextureType (if multisampled then MultisampledTexture
                                   else SampledTexture)
                    ∧ carries_binding_and_set v)
              (referenced_module_variables f)) as Hexact.
  { intros multisampled. unfold ReferencedSampledTextureVariablesImpl.
    rewrite (foldl_pointwise _ _ _ _ (texture_step_shape multisampled)).
    rewrite (proj1 (binding_query _ _)). apply filter_ext_iff. intros v.
    by rewrite bool_decide_eq_true. }
  split; [done|]. intros var.
  unfold referenced_sampled_texture_variables, referenced_multisampled_texture_variables.
  rewrite !Hexact, !list_elem_of_filter.
  intros [[Hu _] _] [[Hs _] _]. congruence.
Qed.
End Typed.
End BindingQueries.

(* ===================================================================== *)
(** * Further properties of [ast::Function]: location and builtin queries *)
(* ===================================================================== *)
Section FirstDecorationQueries.
Import ast.

Lemma location_loop_first ret var decos :
  location_loop ret var decos
  = ret ++ option_list (pair var <$> head (omap As_LocationDecoration decos)).
Proof.
  induction decos as [|d decos IH]; cbn; [by rewrite app_nil_r|].
  destruct (As_LocationDecoration d); cbn; [done|]. apply IH.
Qed.

Lemma builtin_loop_first ret var decos :
  builtin_loop ret var decos
  = ret ++ option_list (pair var <$> head (omap As_BuiltinDecoration decos)).
Proof.
  induction decos as [|d decos IH]; cbn; [by rewrite app_nil_r|].
  destruct (As_BuiltinDecoration d); cbn; [done|]. apply IH.
Qed.

Lemma location_step_first ret var :
  location_step ret var
  = ret ++ option_list (pair var <$> first_decoration As_LocationDecoration var).
Proof.
  unfold location_step, first_decoration, As_DecoratedVariable.
  destruct (decorated var) as [decos|]; cbn; [|by rewrite app_nil_r].
  apply location_loop_first.
Qed.

Lemma builtin_step_first ret var :
  builtin_step ret var
  = ret ++ option_list (pair var <$> first_decoration As_BuiltinDecoration var).
Proof.
  unfold builtin_step, first_decoration, As_DecoratedVariable.
  destruct (decorated var) as [decos|]; cbn; [|by rewrite app_nil_r].
  apply builtin_loop_first.
Qed.

Section Generic.
Context {A : Type} (As : VariableDecoration → option A).

Lemma first_decoration_is_Some var :
  is_Some (first_decoration As var) ↔ carries As var.
Proof.
  unfold first_decoration, carries. destruct (decorated var) as [decos|]; cbn.
  - rewrite head_is_Some. split.
    + intros Hne. apply dec_stable. intros Hno. apply last_omap_None in Hno.
      by apply last_None in Hno.
    + intros Hex Hnil. assert (last (omap As decos) = None) as Hl by by rewrite Hnil.
      by apply last_omap_None in Hl.
  - split; [by intros [? ?]|done].
Qed.

Lemma first_decoration_Some var a :
  first_decoration As var = Some a →
  ∃ decos pre d post,
    decorated var = Some decos ∧ decos = pre ++ d :: post ∧ As d = Some a
    ∧ ∀ d', d' ∈ pre → As d' = None.
Proof.
  unfold first_decoration. destruct (decorated var) as [decos|]; cbn; [|done].
  intros Hhead. exists decos. revert Hhead.
  induction decos as [|d decos IH]; cbn; [done|].
  destruct (As d) as [a'|] eqn:Hd; cbn.
  - intros [= ->]. exists [], d, decos. split; [done|]. split; [done|]. split; [done|].
    by intros d' ?%not_elem_of_nil.
  - intros Hhead. destruct (IH Hhead) as (pre & d0 & post & _ & -> & Hd0 & Hpre).
    exists (d :: pre), d0, post. split; [done|]. split; [done|]. split; [done|].
    intros d' [->|Hin]%elem_of_cons; [done|by apply Hpre].
Qed.

Lemma foldl_first_step (step : list (Variable_ * A) → Variable_ → list (Variable_ * A))
    vars ret :
  (∀ ret var, step ret var = ret ++ option_list (pair var <$> first_decoration As var)) →
  foldl step ret vars = ret ++ omap (λ var, pair var <$> first_decoration As var) vars.
Proof.
  intros Hstep. revert ret. induction vars as [|v vars IH]; intros ret; cbn.
  - by rewrite app_nil_r.
  - rewrite IH, Hstep. destruct (first_decoration As v); cbn.
    + by rewrite <- app_assoc.
    + by rewrite app_nil_r.
Qed.

Lemma omap_first_fst vars :
  (omap (λ var, pair var <$> first_decoration As var) vars).*1 = filter (carries As) vars.
Proof.
  induction vars as [|v vars IH]; [done|]. cbn -[filter].
  destruct (first_decoration As v) as [a|] eqn:Ha; cbn -[filter].
  - rewrite filter_cons_True by (apply first_decoration_is_Some; eauto). by rewrite IH.
  - rewrite filter_cons_False; [done|].
    intros [? Hq]%first_decoration_is_Some. congruence.
Qed.

Lemma first_query step vars :
  (∀ ret var, step ret var = ret ++ option_list (pair var <$> first_decoration As var)) →
  (foldl step [] vars).*1 = filter (carries As) vars
  ∧ (∀ var a, (var, a) ∈ foldl step [] vars →
       var ∈ vars ∧ first_decoration As var = Some a).
Proof.
  intros Hstep. rewrite (foldl_first_step step vars [] Hstep), app_nil_l, omap_first_fst.
  split; [done|]. intros var a (v & Hv & Hentry)%list_elem_of_omap.
  destruct (first_decoration As v) as [a'|] eqn:Ha; cbn in Hentry; [|done].
  by injection Hentry as <- <-.
Qed.
End Generic.

(** X6. [referenced_location_variables()] returns, in order, exactly the
    referenced decorated variables that carry a location decoration, each
    once and with the first location decoration of its list. *)
Theorem referenced_location_variables_first (f : Function) :
  (referenced_location_variables f).*1
    = filter (carries As_LocationDecoration) (referenced_module_variables f)
  ∧ (∀ var location, (var, location) ∈ referenced_location_variables f →
       ∃ decos pre d post,
         decorated var = Some decos ∧ decos = pre ++ d :: post
         ∧ As_LocationDecoration d = Some location
         ∧ ∀ d', d' ∈ pre → As_LocationDecoration d' = None).
Proof.
  destruct (first_query As_LocationDecoration location_step
              (referenced_module_variables f) location_step_first) as [Hfst Hfirst].
  split; [exact Hfst|]. intros var location Hin.
  apply Hfirst in Hin as [_ Hin]. by apply first_decoration_Some.
Qed.

(** X7. [referenced_builtin_variables()] and
    [local_referenced_builtin_variables()] return, in order, exactly the
    decorated variables of their list (the referenced, respectively the
    locally referenced module variables) that carry a builtin decoration,
    each once and with the first builtin decoration of its list. *)
Theorem referenced_builtin_variables_first (f : Function) :
  (referenced_builtin_variables f).*1
    = filter (carries As_BuiltinDecoration) (referenced_module_variables f)
  ∧ (local_referenced_builtin_variables f).*1
    = filter (carries As_BuiltinDecoration) (local_referenced_module_variables f)
  ∧ (∀ var builtin,
       (var, builtin) ∈ referenced_builtin_variables f
       ∨ (var, builtin) ∈ local_referenced_builtin_variables f →
       ∃ decos pre d post,
         decorated var = Some decos ∧ decos = pre ++ d :: post
         ∧ As_BuiltinDecoration d = Some builtin
         ∧ ∀ d', d' ∈ pre → As_BuiltinDecoration d' = None).
Proof.
  destruct (first_query As_BuiltinDecoration builtin_step
              (referenced_module_variables f) builtin_step_first) as [Hfst Hfirst].
  destruct (first_query As_BuiltinDecoration builtin_step
              (local_referenced_module_variables f) builtin_step_first) as [Hlfst Hlfirst].
  split; [exact Hfst|]. split; [exact Hlfst|]. intros var builtin [Hin|Hin].
  - apply Hfirst in Hin as [_ Hin]. by apply first_decoration_Some.
  - apply Hlfirst in Hin as [_ Hin]. by apply first_decoration_Some.
Qed.
End FirstDecorationQueries.

(* ===================================================================== *)
(** * Further properties of [ast::Function]: the derived lists            *)
(* ===================================================================== *)
Section DerivedLists.
Import ast.

Lemma pipeline_stage_loop_none decos :
  (∀ d, d ∈ decos → As_StageDecoration d = None) → pipeline_stage_loop decos = kNone.
Proof.
  induction decos as [|d rest IH]; intros Hnone; [done|].
  cbn. rewrite (Hnone d) by left. apply IH. intros d' Hd'. apply Hnone. by right.
Qed.

Lemma pipeline_stage_loop_first pre stage post :
  (∀ d, d ∈ pre → As_StageDecoration d = None) →
  pipeline_stage_loop (pre ++ StageDeco stage :: post) = stage.
Proof.
  induction pre as [|d pre IH]; intros Hnone; [done|].
  cbn. rewrite (Hnone d) by left. apply IH. intros d' Hd'. apply Hnone. by right.
Qed.

(** X9. [pipeline_stage()] is the stage of the first stage decoration of
    the function, whatever follows it, and [kNone] for a function without
    stage decoration. *)
Theorem pipeline_stage_first_or_none (f : Function) :
  (∀ pre stage post,
      decorations_ f = pre ++ StageDeco stage :: post →
      (∀ d, d ∈ pre → As_StageDecoration d = None) →
      pipeline_stage f = stage)
  ∧ ((∀ d, d ∈ decorations_ f → As_StageDecoration d = None) →
      pipeline_stage f = kNone).
Proof.
  unfold pipeline_stage. split.
  - intros pre stage post -> Hpre. by apply pipeline_stage_loop_first.
  - apply pipeline_stage_loop_none.
Qed.

(** The function with its two lists of module variables exchanged. *)
Local Abbreviation exchanged g :=
  (mkFunction (name_ g) (decorations_ g) (local_referenced_module_vars_ g)
              (referenced_module_vars_ g) (ancestor_entry_points_ g)).

Lemma exchanged_add_local g var :
  exchanged (add_local_referenced_module_variable g var)
  = add_referenced_module_variable (exchanged g) var.
Proof.
  unfold add_local_referenced_module_variable, add_referenced_module_variable. cbn.
  by destruct (name_listed _ _).
Qed.

Lemma exchanged_foldl_add_local vars g :
  exchanged (foldl add_local_referenced_module_variable g vars)
  = foldl add_referenced_module_variable (exchanged g) vars.
Proof.
  revert g. induction vars as [|v vars IH]; intros g; [done|].
  cbn. by rewrite IH, exchanged_add_local.
Qed.

Lemma local_foldl_add_local vars g :
  local_referenced_module_vars_ (foldl add_local_referenced_module_variable g vars)
  = referenced_module_vars_ (foldl add_referenced_module_variable (exchanged g) vars).
Proof. by rewrite <- exchanged_foldl_add_local. Qed.

(** X10. Starting from a function whose list of locally referenced module
    variables is empty, after the calls
    [add_local_referenced_module_variable(v)] for [v] in [vars], that list
    holds no two entries of the same name, is a subsequence of [vars] and
    holds the first variable of every name; a call whose argument bears
    the name of an entry changes nothing. *)
Theorem add_local_referenced_module_variable_unique_ordered
    (f : Function) (vars : list Variable_) :
  local_referenced_module_vars_ f = [] →
  let l := local_referenced_module_vars_
             (foldl add_local_referenced_module_variable f vars) in
  NoDup (name <$> l)
  ∧ l `sublist_of` vars
  ∧ (∀ pre v post, vars = pre ++ v :: post → name v ∉ name <$> pre → v ∈ l)
  ∧ (∀ g v var, v ∈ local_referenced_module_vars_ g → name v = name var →
       add_local_referenced_module_variable g var = g).
Proof.
  intros Hf l. subst l. rewrite local_foldl_add_local. repeat split.
  - apply foldl_add_NoDup. cbn. rewrite Hf. apply NoDup_nil_2.
  - destruct (foldl_add_extends vars (exchanged f)) as (k & -> & Hsub).
    cbn. by rewrite Hf.
  - intros pre v post Hv Hpre.
    apply (foldl_add_keeps_first vars (exchanged f) pre v post); [done..|].
    cbn. rewrite Hf. apply not_elem_of_nil.
  - intros g v var Hin Hname. unfold add_local_referenced_module_variable.
    assert (name_listed (local_referenced_module_vars_ g) var = true) as ->; [|done].
    apply name_listed_true. rewrite <- Hname. by apply list_elem_of_fmap_2.
Qed.

(** X11. The three [add_...] members work on separate lists: calls of
    different members commute, none of them changes the decorations, and
    each leaves the lists of the other two as they are. *)
Theorem add_members_independent (f : Function) (v w : Variable_) (ep : string) :
  add_local_referenced_module_variable (add_referenced_module_variable f v) w
    = add_referenced_module_variable (add_local_referenced_module_variable f w) v
  ∧ add_ancestor_entry_point (add_referenced_module_variable f v) ep
    = add_referenced_module_variable (add_ancestor_entry_point f ep) v
  ∧ add_ancestor_entry_point (add_local_referenced_module_variable f w) ep
    = add_local_referenced_module_variable (add_ancestor_entry_point f ep) w
  ∧ (decorations_ (add_referenced_module_variable f v) = decorations_ f
     ∧ decorations_ (add_local_referenced_module_variable f w) = decorations_ f
     ∧ decorations_ (add_ancestor_entry_point f ep) = decorations_ f)
  ∧ (local_referenced_module_vars_ (add_referenced_module_variable f v)
       = local_referenced_module_vars_ f
     ∧ ancestor_entry_points_ (add_referenced_module_variable f v)
       = ancestor_entry_points_ f)
  ∧ (referenced_module_vars_ (add_local_referenced_module_variable f w)
       = referenced_module_vars_ f
     ∧ ancestor_entry_points_ (add_local_referenced_module_variable f w)
       = ancestor_entry_points_ f)
  ∧ (referenced_module_vars_ (add_ancestor_entry_point f ep) = referenced_module_vars_ f
     ∧ local_referenced_module_vars_ (add_ancestor_entry_point f ep)
       = local_referenced_module_vars_ f).
Proof.
  unfold add_local_referenced_module_variable, add_referenced_module_variable,
    add_ancestor_entry_point.
  destruct (name_listed (referenced_module_vars_ f) v) eqn:Hv,
           (name_listed (local_referenced_module_vars_ f) w) eqn:Hw,
           (entry_point_listed (ancestor_entry_points_ f) ep) eqn:Hep;
    cbn; rewrite ?Hv, ?Hw, ?Hep; done.
Qed.

(** *** Ancestor entry points *)

Lemma entry_point_listed_true points ep :
  entry_point_listed points ep = true ↔ ep ∈ points.
Proof.
  induction points as [|p rest IH]; cbn.
  - split; [done|]. by intros ?%not_elem_of_nil.
  - rewrite elem_of_cons. case_decide as Hp.
    + split; [|done]. intros _. by left.
    + rewrite IH. split; [by right|]. intros [?|?]; [congruence|done].
Qed.

Lemma HasAncestorEntryPoint_true f nm :
  HasAncestorEntryPoint f nm = true ↔ nm ∈ ancestor_entry_points_ f.
Proof.
  unfold HasAncestorEntryPoint. induction (ancestor_entry_points_ f) as [|p rest IH]; cbn.
  - split; [done|]. by intros ?%not_elem_of_nil.
  - rewrite elem_of_cons. case_decide as Hp.
    + split; [|done]. intros _. by left.
    + rewrite IH. split; [by right|]. intros [?|?]; [congruence|done].
Qed.

Lemma add_ancestor_entry_points f ep :
  ancestor_entry_points_ (add_ancestor_entry_point f ep) =
  if entry_point_listed (ancestor_entry_points_ f) ep then ancestor_entry_points_ f
  else ancestor_entry_points_ f ++ [ep].
Proof. unfold add_ancestor_entry_point. by destruct (entry_point_listed _ _). Qed.

Lemma foldl_add_ancestor eps f :
  (NoDup (ancestor_entry_points_ f) →
   NoDup (ancestor_entry_points_ (foldl add_ancestor_entry_point f eps)))
  ∧ (∃ k, ancestor_entry_points_ (foldl add_ancestor_entry_point f eps)
          = ancestor_entry_points_ f ++ k ∧ k `sublist_of` eps)
  ∧ (∀ nm, nm ∈ ancestor_entry_points_ (foldl add_ancestor_entry_point f eps)
           ↔ nm ∈ ancestor_entry_points_ f ∨ nm ∈ eps).
Proof.
  revert f. induction eps as [|ep eps IH]; intros f; cbn.
  - split; [done|]. split.
    + exists []. by rewrite app_nil_r.
    + intros nm. split; [by left|]. intros [?|?%not_elem_of_nil]; done.
  - destruct (IH (add_ancestor_entry_point f ep)) as (Hnd & (k & Hk & Hsub) & Hin).
    rewrite add_ancestor_entry_points in Hnd, Hk, Hin.
    destruct (entry_point_listed (ancestor_entry_points_ f) ep) eqn:Hl.
    + apply entry_point_listed_true in Hl. split; [done|]. split.
      * exists k. split; [done|]. by apply sublist_cons.
      * intros nm. rewrite Hin, elem_of_cons. split.
        -- intros [?|?]; [by left|by right; right].
        -- intros [?|[->|?]]; [by left|by left|by right].
    + assert (ep ∉ ancestor_entry_points_ f) as Hnotin.
      { intros Hin'. apply entry_point_listed_true in Hin'. congruence. }
      split; [|split].
      * intros Hf. apply Hnd. apply NoDup_app. split; [done|]. split.
        -- by intros x Hx ->%list_elem_of_singleton.
        -- apply NoDup_singleton.
      * exists (ep :: k). rewrite Hk, <- app_assoc. split; [done|]. by apply sublist_skip.
      * intros nm. rewrite Hin, elem_of_app, list_elem_of_singleton, elem_of_cons.
        split.
        -- intros [[?| ->]|?]; [by left|by right; left|by right; right].
        -- intros [?|[->|?]]; [by left; left|by left; right|by right].
Qed.

(** X12. After [add_ancestor_entry_point(ep)], [HasAncestorEntryPoint]
    holds of [ep] and of what it held of before, and of nothing else.
    Starting from a function without ancestor entry points, after the
    calls for [eps] it holds exactly of the members of [eps], and the list
    is a subsequence of [eps] without repetition. *)
Theorem ancestor_entry_points_recorded (f : Function) (eps : list string) :
  (∀ ep nm, HasAncestorEntryPoint (add_ancestor_entry_point f ep) nm = true
            ↔ nm = ep ∨ HasAncestorEntryPoint f nm = true)
  ∧ (ancestor_entry_points_ f = [] →
     let g := foldl add_ancestor_entry_point f eps in
     (∀ nm, HasAncestorEntryPoint g nm = true ↔ nm ∈ eps)
     ∧ NoDup (ancestor_entry_points_ g)
     ∧ ancestor_entry_points_ g `sublist_of` eps).
Proof.
  split.
  - intros ep nm. rewrite !HasAncestorEntryPoint_true.
    destruct (foldl_add_ancestor [ep] f) as (_ & _ & Hin). cbn in Hin.
    rewrite Hin, list_elem_of_singleton. tauto.
  - intros Hf g. subst g.
    destruct (foldl_add_ancestor eps f) as (Hnd & (k & Hk & Hsub) & Hin).
    rewrite Hf in Hnd, Hk, Hin. split; [|split].
    + intros nm. rewrite HasAncestorEntryPoint_true, Hin. split; [|by right].
      by intros [?%not_elem_of_nil|?].
    + apply Hnd, NoDup_nil_2.
    + by rewrite Hk.
Qed.

(** X8. For a function whose referenced module variables were recorded
    through [add_referenced_module_variable], no query reports two
    variables of the same name. *)
Theorem queries_report_each_name_once (f : Function) (vars : list Variable_) :
  referenced_module_vars_ f = [] →
  let g := foldl add_referenced_module_variable f vars in
  NoDup (name <$> (referenced_uniform_variables g).*1)
  ∧ NoDup (name <$> (referenced_storagebuffer_variables g).*1)
  ∧ NoDup (name <$> (referenced_location_variables g).*1)
  ∧ NoDup (name <$> (referenced_builtin_variables g).*1).
Proof.
  intros Hf g.
  assert (NoDup (name <$> referenced_module_variables g)) as Hnd.
  { apply foldl_add_NoDup. rewrite Hf. apply NoDup_nil_2. }
  assert (∀ (P : Variable_ → Prop) `{!∀ x, Decision (P x)},
            NoDup (name <$> filter P (referenced_module_variables g))) as Hfilter.
  { intros P ?. eapply sublist_NoDup; [exact Hnd|]. apply fmap_sublist, sublist_filter. }
  unfold referenced_uniform_variables, referenced_storagebuffer_variables.
  rewrite uniform_step_shape, storagebuffer_step_shape.
  rewrite (proj1 (binding_query _ _)), (proj1 (binding_query _ _)).
  unfold referenced_location_variables, referenced_builtin_variables.
  rewrite (proj1 (first_query As_LocationDecoration location_step _ location_step_first)).
  rewrite (proj1 (first_query As_BuiltinDecoration builtin_step _ builtin_step_first)).
  repeat split; apply Hfilter.
Qed.
End DerivedLists.

(* ===================================================================== *)
(** * Properties of [transform::DataMap]                                  *)
(* ===================================================================== *)
Section DataMapProperties.
Import transform.
Context {Data : Type}.
Implicit Types (m other : gmap positive Data) (T : positive).

Lemma emplace_union m T data (rest : gmap positive Data) :
  emplace m T data ∪ rest = m ∪ <[T := data]> rest.
Proof.
  unfold emplace. apply map_eq. intros i. destruct (m !! T) as [x|] eqn:HT.
  - rewrite !lookup_union. destruct (decide (T = i)) as [->|Hne].
    + by rewrite HT, lookup_insert_eq, !union_Some_l.
    + by rewrite lookup_insert_ne.
  - by rewrite <- insert_union_l, insert_union_r.
Qed.

Lemma Add_loop_union visit m :
  Add_loop m visit = m ∪ list_to_map visit.
Proof.
  unfold Add_loop. revert m. induction visit as [|[T data] visit IH]; intros m; cbn.
  - by rewrite (right_id_L ∅ (∪)).
  - by rewrite IH, emplace_union.
Qed.

Lemma Add_fill_lookup (σ : gmap nat (gmap positive Data)) this visit a :
  foldl (λ σ it, alter (λ m, emplace m it.1 it.2) this σ) σ visit !! a
  = if decide (a = this) then (λ m, Add_loop m visit) <$> σ !! this else σ !! a.
Proof.
  unfold Add_loop. revert σ. induction visit as [|it visit IH]; intros σ; cbn.
  - case_decide as Ha; [|done]. subst a. by destruct (σ !! this).
  - rewrite IH. case_decide as Ha.
    + rewrite lookup_alter_eq. by destruct (σ !! this).
    + by rewrite lookup_alter_ne.
Qed.

(** X13. For two distinct maps, [Add(other)] keeps every entry [this]
    already holds and takes from [other] the entries of the classes [this]
    lacks, in whatever order the unordered map of [other] is iterated, and
    leaves [other] empty; when [other] is the map itself the map ends up
    empty; no third map is touched. *)
Theorem DataMap_Add_keeps_existing (σ : gmap nat (gmap positive Data))
    (this other : nat) m o (visit : list (positive * Data)) :
  σ !! this = Some m → σ !! other = Some o →
  visit ≡ₚ map_to_list o →
  (this ≠ other →
     Add σ this other visit !! this = Some (m ∪ o)
     ∧ (∀ T, Get (m ∪ o) T = match Get m T with Some data => Some data | None => Get o T end)
     ∧ Add σ this other visit !! other = Some ∅)
  ∧ (this = other → Add σ this other visit !! this = Some ∅)
  ∧ (∀ a, a ≠ this → a ≠ other → Add σ this other visit !! a = σ !! a).
Proof.
  intros Hthis Hother Hvisit. unfold Add. split; [|split].
  - intros Hne. split; [|split].
    + rewrite lookup_alter_ne by done. rewrite Add_fill_lookup, decide_True by done.
      rewrite Hthis. cbn. f_equal. rewrite Add_loop_union. f_equal.
      rewrite <- (list_to_map_to_list o) at 1. symmetry.
      apply list_to_map_proper; [apply NoDup_fst_map_to_list|done].
    + intros T. unfold Get. rewrite lookup_union. by destruct (m !! T), (o !! T).
    + rewrite lookup_alter_eq, Add_fill_lookup, decide_False by done.
      by rewrite Hother.
  - intros <-. rewrite lookup_alter_eq, Add_fill_lookup, decide_True by done.
    by rewrite Hthis.
  - intros a Hathis Haother.
    rewrite lookup_alter_ne by done. by rewrite Add_fill_lookup, decide_False.
Qed.

Lemma PutAll_snoc m (ptrs : list (positive * Data)) T data :
  PutAll m (ptrs ++ [(T, data)]) = Put (PutAll m ptrs) T data.
Proof. unfold PutAll. by rewrite foldl_app. Qed.

(** X14. [Get] returns what the last [Put] of that class stored: after
    [Put(T, data)], [Get<T>()] is [data] and every other class is as
    before; after the [Put]s of a [DataMap(data...)] construction,
    [Get<T>()] is the last argument of class [T], and [nullptr] when there
    is none. *)
Theorem DataMap_Put_Get m (ptrs : list (positive * Data)) :
  (∀ T data, Get (Put m T data) T = Some data)
  ∧ (∀ T T' data, T ≠ T' → Get (Put m T data) T' = Get m T')
  ∧ (∀ T, Get (PutAll m ptrs) T
          = match last (filter (λ it, it.1 = T) ptrs) with
            | Some it => Some it.2
            | None => Get m T
            end)
  ∧ (∀ T, (∀ it, it ∈ ptrs → it.1 ≠ T) → Get (DataMap_of ptrs) T = None).
Proof.
  assert (∀ T, Get (PutAll m ptrs) T
          = match last (filter (λ it, it.1 = T) ptrs) with
            | Some it => Some it.2
            | None => Get m T
            end) as Hlast.
  { intros T. induction ptrs as [|[T' data] ptrs IH] using rev_ind; [done|].
    rewrite PutAll_snoc, filter_app. unfold Get, Put in *.
    destruct (decide (T' = T)) as [->|Hne].
    - rewrite lookup_insert_eq, filter_cons_True by done.
      by rewrite filter_nil, last_snoc.
    - rewrite lookup_insert_ne by done. rewrite filter_cons_False by done.
      by rewrite filter_nil, app_nil_r. }
  unfold Get, Put. split; [|split; [|split]].
  - intros T data. apply lookup_insert_eq.
  - intros T T' data Hne. by apply lookup_insert_ne.
  - exact Hlast.
  - intros T Hnone. unfold DataMap_of, Get.
    clear Hlast. induction ptrs as [|[T' data] ptrs IH] using rev_ind; [done|].
    rewrite PutAll_snoc. unfold Put. rewrite lookup_insert_ne.
    + apply IH. intros it Hit. apply Hnone. apply elem_of_app. by left.
    + apply (Hnone (T', data)). apply elem_of_app. right. by left.
Qed.
End DataMapProperties.

(* ===================================================================== *)
(** * Further properties of the parser results and of [FromProgram]       *)
(* ===================================================================== *)
Section ExpectToMaybe.
Import wgsl.

(** X15. Moving an [Expect] into a [Maybe] gives what the [Maybe]
    constructors give directly: a successful [Expect] becomes the matched
    [Maybe] of the same value and source, an errored [Expect] the errored
    [Maybe]; neither conversion ever yields the no-match state. *)
Theorem Maybe_of_expect_matches_constructors (T : Type) `{!ValueInit T} :
  (∀ U `{!ConstructFrom U T} (val : U) (s : Source),
     Maybe.of_expect_move (T:=T) (Expect.of_value (T:=T) val s) = Maybe.of_value val s)
  ∧ Maybe.of_expect_move (T:=T) (Expect.of_errored (T:=T)) = Maybe.of_errored
  ∧ (∀ U `{!ConstructFrom U T} (e : Expect.t U),
       ¬ Maybe.is_no_match (Maybe.of_expect_move (T:=T) e))
  ∧ (∀ U `{!ConstructFrom U T} `{!ConstructFrom U Source} (e : Expect.t U),
       ¬ Maybe.is_no_match (Maybe.of_expect_copy (T:=T) e)).
Proof.
  split; [done|]. split; [done|]. unfold Maybe.is_no_match. split.
  - intros U ? e. cbn. destruct (Expect.errored e); by intros [? ?].
  - intros U ? ? e. cbn. destruct (Expect.errored e); by intros [? ?].
Qed.
End ExpectToMaybe.

Section ConverterValid.
Import ir.
Context {Program IRModule diag_List : Type}.
Variable IsValid : Program → bool.
Variable Build : Program → option IRModule * diag_List.
Variable str : diag_List → string.

(** X16. On a valid program [FromProgram] runs one builder, on that
    program; it returns the module when the build succeeds and the text of
    the builder's diagnostics when it fails.  A builder is run only on a
    valid program. *)
Theorem FromProgram_valid_program (program : Program) :
  (IsValid program = true →
     builders_run (FromProgram IsValid Build str program) = [program]
     ∧ result (FromProgram IsValid Build str program)
       = match (Build program).1 with
         | Some m => Success m
         | None => Failure (str (Build program).2)
         end)
  ∧ (∀ p, p ∈ builders_run (FromProgram IsValid Build str program) →
       p = program ∧ IsValid program = true).
Proof.
  unfold FromProgram. destruct (IsValid program); cbn.
  - destruct (Build program) as [[m|] diagnostics]; cbn.
    + split; [done|]. by intros p ->%list_elem_of_singleton.
    + split; [done|]. by intros p ->%list_elem_of_singleton.
  - split; [done|]. by intros p ?%not_elem_of_nil.
Qed.
End ConverterValid.

Section ContinueParsing.
Import wgsl.

(** X17. [continue_parsing()] can only turn false as errors accumulate:
    it holds before whenever it holds after more errors were reported
    with the same limit and synchronization; a parser that is not
    synchronized, or whose limit is 0, never continues. *)
Theorem continue_parsing_antitone (p q : ParserImpl) :
  (synchronized_ p = synchronized_ q → max_errors_ p = max_errors_ q →
   (error_count p ≤ error_count q)%N →
   continue_parsing q = true → continue_parsing p = true)
  ∧ (synchronized_ p = false → continue_parsing p = false)
  ∧ (max_errors_ p = 0%N → continue_parsing p = false).
Proof.
  unfold continue_parsing. split; [|split].
  - intros -> -> Hle. rewrite !andb_true_iff, !bool_decide_eq_true.
    intros [? ?]. split; [done|lia].
  - by intros ->.
  - intros ->. rewrite (bool_decide_eq_false_2 _) by lia. apply andb_false_r.
Qed.
End ContinueParsing.

Section IncrementalQueries.
Import ast.

Lemma referenced_uniform_variables_add f var :
  referenced_uniform_variables (add_referenced_module_variable f var)
  = if name_listed (referenced_module_vars_ f) var then referenced_uniform_variables f
    else uniform_step (referenced_uniform_variables f) var.
Proof.
  unfold referenced_uniform_variables, referenced_module_variables.
  rewrite add_referenced_vars. destruct (name_listed _ _); [done|].
  by rewrite foldl_app.
Qed.

(** X18. Recording one more referenced variable extends the result of
    [referenced_uniform_variables()] by at most one entry, at the end: by
    the variable with its last binding and set decoration when its name is
    new and it is a bound uniform variable; by nothing when its name is
    already recorded, when it is not of storage class uniform, when it is
    not a decorated variable, or when it lacks a binding or a set
    decoration. *)
Theorem referenced_uniform_variables_incremental (f : Function) (var : Variable_) :
  (name var ∈ name <$> referenced_module_vars_ f →
     referenced_uniform_variables (add_referenced_module_variable f var)
     = referenced_uniform_variables f)
  ∧ (storage_class var ≠ kUniform →
     referenced_uniform_variables (add_referenced_module_variable f var)
     = referenced_uniform_variables f)
  ∧ (decorated var = None →
     referenced_uniform_variables (add_referenced_module_variable f var)
     = referenced_uniform_variables f)
  ∧ (∀ decos,
       decorated var = Some decos →
       (∀ d, d ∈ decos → As_BindingDecoration d = None)
       ∨ (∀ d, d ∈ decos → As_SetDecoration d = None) →
       referenced_uniform_variables (add_referenced_module_variable f var)
       = referenced_uniform_variables f)
  ∧ (∀ decos b s,
       name var ∉ name <$> referenced_module_vars_ f →
       storage_class var = kUniform →
       decorated var = Some decos →
       last (omap As_BindingDecoration decos) = Some b →
       last (omap As_SetDecoration decos) = Some s →
       referenced_uniform_variables (add_referenced_module_variable f var)
       = referenced_uniform_variables f ++ [(var, {| binding := b; set := s |})])
  ∧ (∃ added,
       referenced_uniform_variables (add_referenced_module_variable f var)
       = referenced_uniform_variables f ++ added
       ∧ length added ≤ 1 ∧ ∀ entry, entry ∈ added → entry.1 = var).
Proof.
  rewrite referenced_uniform_variables_add. repeat split.
  - intros Hin. apply name_listed_true in Hin. by rewrite Hin.
  - intros Hsc. destruct (name_listed _ _); [done|].
    unfold uniform_step. by rewrite bool_decide_eq_false_2.
  - intros Hplain. destruct (name_listed _ _); [done|].
    unfold uniform_step, As_DecoratedVariable. rewrite Hplain.
    by destruct (negb _).
  - intros decos Hdecos Hmissing. destruct (name_listed _ _); [done|].
    unfold uniform_step, As_DecoratedVariable. rewrite Hdecos, scan_decorations_last.
    destruct (negb _); [done|].
    assert (∀ {A} (As : VariableDecoration → option A),
              (∀ d, d ∈ decos → As d = None) → last (omap As decos) = None) as Hnone.
    { intros A As HAs. apply last_omap_None. rewrite Exists_exists.
      intros (d & Hd & x & Hx). rewrite (HAs d Hd) in Hx. done. }
    destruct Hmissing as [Hb|Hs].
    + by rewrite (Hnone _ _ Hb).
    + rewrite (Hnone _ _ Hs). by destruct (last (omap As_BindingDecoration decos)).
  - intros decos b s Hnew Hsc Hdecos Hb Hs. apply name_listed_false in Hnew.
    rewrite Hnew. unfold uniform_step, As_DecoratedVariable.
    rewrite bool_decide_eq_true_2 by done. cbn.
    by rewrite Hdecos, scan_decorations_last, Hb, Hs.
  - destruct (name_listed _ _).
    + exists []. rewrite app_nil_r. split; [done|]. split; [cbn; lia|].
      by intros entry ?%not_elem_of_nil.
    + exists (option_list (uniform_entry var)). split; [apply uniform_step_entry|].
      destruct (uniform_entry var) as [entry|] eqn:Hentry; cbn.
      * split; [lia|]. intros e ->%list_elem_of_singleton.
        by apply uniform_entry_Some in Hentry as [? _].
      * split; [lia|]. by intros entry ?%not_elem_of_nil.
Qed.
End IncrementalQueries.

(* ===================================================================== *)
(** * The further properties at sample inputs                             *)
(* ===================================================================== *)
Section FurtherWitnesses.
Import ast wgsl ir transform samples.

Lemma referenced_storagebuffer_variables_witness :
  (referenced_storagebuffer_variables textured).*1 = [ssbo]
  ∧ ∃ decos, decorated ssbo = Some decos
      ∧ last (omap As_BindingDecoration decos) = Some (mkBinding 3)
      ∧ last (omap As_SetDecoration decos) = Some (mkSet 0).
Proof.
  destruct (referenced_storagebuffer_variables_exact textured) as [Hfst Hinfo].
  split; [rewrite Hfst; reflexivity|].
  apply (Hinfo ssbo {| binding := mkBinding 3; set := mkSet 0 |}).
  exact (list_elem_of_here (ssbo, {| binding := mkBinding 3; set := mkSet 0 |}) []).
Defined.

Lemma uniform_and_storagebuffer_disjoint_witness :
  ubo_full ∉ (referenced_storagebuffer_variables textured).*1.
Proof.
  apply uniform_and_storagebuffer_disjoint.
  exact (list_elem_of_here ubo_full []).
Defined.

Lemma ReferencedSamplerVariablesImpl_witness :
  (referenced_sampler_variables sample_unwrapped_type textured).*1 = [smp]
  ∧ (referenced_comparison_sampler_variables sample_unwrapped_type textured).*1 = [smp_cmp]
  ∧ ∃ decos, decorated smp = Some decos
      ∧ last (omap As_BindingDecoration decos) = Some (mkBinding 3)
      ∧ last (omap As_SetDecoration decos) = Some (mkSet 1).
Proof.
  destruct (ReferencedSamplerVariablesImpl_exact sample_unwrapped_type textured kSampler)
    as [Hfst Hinfo].
  destruct (ReferencedSamplerVariablesImpl_exact sample_unwrapped_type textured
              kComparisonSampler) as [Hcmp _].
  split; [unfold referenced_sampler_variables; rewrite Hfst; reflexivity|].
  split; [unfold referenced_comparison_sampler_variables; rewrite Hcmp; reflexivity|].
  apply (Hinfo smp {| binding := mkBinding 3; set := mkSet 1 |}).
  exact (list_elem_of_here (smp, {| binding := mkBinding 3; set := mkSet 1 |}) []).
Defined.

Lemma sampler_and_comparison_sampler_disjoint_witness :
  smp ∉ (referenced_comparison_sampler_variables sample_unwrapped_type textured).*1.
Proof.
  apply sampler_and_comparison_sampler_disjoint.
  exact (list_elem_of_here smp []).
Defined.

Lemma ReferencedSampledTextureVariablesImpl_witness :
  (referenced_sampled_texture_variables sample_unwrapped_type textured).*1 = [tex_sampled]
  ∧ (referenced_multisampled_texture_variables sample_unwrapped_type textured).*1
    = [tex_multisampled]
  ∧ tex_sampled ∉ (referenced_multisampled_texture_variables sample_unwrapped_type textured).*1.
Proof.
  destruct (ReferencedSampledTextureVariablesImpl_exact sample_unwrapped_type textured)
    as [Hexact Hdisjoint].
  split; [unfold referenced_sampled_texture_variables; rewrite Hexact; reflexivity|].
  split; [unfold referenced_multisampled_texture_variables; rewrite Hexact; reflexivity|].
  apply Hdisjoint. exact (list_elem_of_here tex_sampled []).
Defined.

Lemma referenced_location_variables_witness :
  (referenced_location_variables textured).*1 = [frag_in]
  ∧ ∃ decos pre d post,
      decorated frag_in = Some decos ∧ decos = pre ++ d :: post
      ∧ As_LocationDecoration d = Some (ast.mkLocation 2)
      ∧ ∀ d', d' ∈ pre → As_LocationDecoration d' = None.
Proof.
  destruct (referenced_location_variables_first textured) as [Hfst Hfirst].
  split; [rewrite Hfst; reflexivity|].
  apply (Hfirst frag_in (ast.mkLocation 2)).
  exact (list_elem_of_here (frag_in, ast.mkLocation 2) []).
Defined.

Lemma referenced_builtin_variables_witness :
  (referenced_builtin_variables textured).*1 = [frag_pos]
  ∧ (local_referenced_builtin_variables textured).*1 = [frag_pos]
  ∧ ∃ decos pre d post,
      decorated frag_pos = Some decos ∧ decos = pre ++ d :: post
      ∧ As_BuiltinDecoration d = Some kFragCoord
      ∧ ∀ d', d' ∈ pre → As_BuiltinDecoration d' = None.
Proof.
  destruct (referenced_builtin_variables_first textured) as (Hfst & Hlfst & Hfirst).
  split; [rewrite Hfst; reflexivity|]. split; [rewrite Hlfst; reflexivity|].
  apply (Hfirst frag_pos kFragCoord). left.
  exact (list_elem_of_here (frag_pos, kFragCoord) []).
Defined.

Lemma queries_report_each_name_once_witness :
  NoDup (name <$> (referenced_uniform_variables
                     (foldl add_referenced_module_variable (Function_new "f" [])
                            [ubo_full; var_a; ubo_full; ubo_no_set])).*1).
Proof.
  apply (queries_report_each_name_once (Function_new "f" [])
           [ubo_full; var_a; ubo_full; ubo_no_set] eq_refl).
Defined.

Lemma pipeline_stage_witness :
  pipeline_stage textured = kFragment ∧ pipeline_stage (Function_new "helper" []) = kNone.
Proof.
  split.
  - apply (proj1 (pipeline_stage_first_or_none textured)
             [WorkgroupDeco (mkWorkgroup 1 1 1)] kFragment [StageDeco kVertex]); [reflexivity|].
    intros d Hd. apply list_elem_of_singleton in Hd. by subst.
  - apply (proj2 (pipeline_stage_first_or_none _)).
    intros d Hd. by apply not_elem_of_nil in Hd.
Defined.

Lemma add_local_referenced_module_variable_witness :
  let g := foldl add_local_referenced_module_variable (Function_new "f" [])
             [var_a; var_b; var_a'] in
  local_referenced_module_vars_ g = [var_a; var_b]
  ∧ NoDup (name <$> local_referenced_module_vars_ g)
  ∧ add_local_referenced_module_variable g var_a' = g.
Proof.
  intros g.
  destruct (add_local_referenced_module_variable_unique_ordered
              (Function_new "f" []) [var_a; var_b; var_a'] eq_refl) as (Hnd & _ & _ & Hsame).
  split; [reflexivity|]. split; [exact Hnd|].
  apply (Hsame g var_a var_a'); [|reflexivity].
  exact (list_elem_of_here var_a [var_b]).
Defined.

Lemma ancestor_entry_points_witness :
  let g := foldl add_ancestor_entry_point (Function_new "f" []) ["vs"; "fs"; "vs"] in
  ancestor_entry_points_ g = ["vs"; "fs"]
  ∧ HasAncestorEntryPoint g "fs" = true
  ∧ NoDup (ancestor_entry_points_ g).
Proof.
  intros g.
  destruct (ancestor_entry_points_recorded (Function_new "f" []) ["vs"; "fs"; "vs"])
    as [_ Hseq].
  destruct (Hseq eq_refl) as (Hhas & Hnd & _).
  split; [reflexivity|]. split; [|exact Hnd].
  apply Hhas. exact (list_elem_of_further "fs" "vs" ["fs"; "vs"] (list_elem_of_here "fs" ["vs"])).
Defined.

Lemma DataMap_Add_witness :
  let σ : gmap nat (gmap positive string) :=
    {[ 0 := data_vertex_pulling; 1 := data_other ]} in
  (Get <$> Add σ 0 1 (reverse (map_to_list data_other)) !! 0)
    = Some (Get (data_vertex_pulling ∪ data_other))
  ∧ Get (data_vertex_pulling ∪ data_other) 2%positive = Some "binding remapper"
  ∧ Get (data_vertex_pulling ∪ data_other) 3%positive = Some "first index offset"
  ∧ Add σ 0 1 (reverse (map_to_list data_other)) !! 1 = Some ∅
  ∧ Add σ 0 0 (reverse (map_to_list data_vertex_pulling)) !! 0 = Some ∅.
Proof.
  intros σ.
  destruct (DataMap_Add_keeps_existing σ 0 1 data_vertex_pulling data_other
              (reverse (map_to_list data_other)) eq_refl eq_refl (reverse_Permutation _))
    as (Hdistinct & _ & _).
  destruct (Hdistinct (Nat.neq_0_succ 0)) as (Hthis & Hget & Hother).
  destruct (DataMap_Add_keeps_existing σ 0 0 data_vertex_pulling data_vertex_pulling
              (reverse (map_to_list data_vertex_pulling)) eq_refl eq_refl
              (reverse_Permutation _)) as (_ & Hsame & _).
  split; [by rewrite Hthis|]. split; [rewrite Hget; reflexivity|].
  split; [rewrite Hget; reflexivity|]. split; [exact Hother|exact (Hsame eq_refl)].
Defined.

Lemma DataMap_Put_Get_witness :
  Get (DataMap_of [(1%positive, "a"); (2%positive, "b"); (1%positive, "c")]) 1%positive
    = Some "c"
  ∧ Get (DataMap_of [(1%positive, "a"); (2%positive, "b")]) 3%positive = None
  ∧ Get (Put data_other 2%positive "fresh") 3%positive = Some "first index offset".
Proof.
  split; [|split].
  - unfold DataMap_of.
    rewrite (proj1 (proj2 (proj2 (DataMap_Put_Get ∅ _))) 1%positive). reflexivity.
  - apply (proj2 (proj2 (proj2 (DataMap_Put_Get (∅ : gmap positive string) _)))).
    intros it Hit. apply elem_of_cons in Hit as [->|Hit]; [discriminate|].
    apply list_elem_of_singleton in Hit as ->. discriminate.
  - rewrite (proj1 (proj2 (DataMap_Put_Get data_other [])) 2%positive 3%positive) by discriminate.
    reflexivity.
Defined.

Lemma Maybe_of_expect_matches_constructors_witness :
  ¬ Maybe.is_no_match (Maybe.of_expect_move (T:=N) (Expect.of_value (T:=N) 7%N Source_default))
  ∧ ¬ Maybe.is_no_match (Maybe.of_expect_copy (T:=Source) expect_span).
Proof.
  split.
  - apply (proj1 (proj2 (proj2 (Maybe_of_expect_matches_constructors N))) N).
  - apply (proj2 (proj2 (proj2 (Maybe_of_expect_matches_constructors Source))) Source).
Defined.

Lemma FromProgram_valid_program_witness :
  builders_run (FromProgram sample_IsValid sample_Build sample_str (["main"], []))
    = [(["main"], [])]
  ∧ result (FromProgram sample_IsValid sample_Build sample_str (["main"], []))
    = Success ["main"].
Proof.
  apply (proj1 (FromProgram_valid_program sample_IsValid sample_Build sample_str
                  (["main"], []))).
  reflexivity.
Defined.

Lemma continue_parsing_antitone_witness :
  continue_parsing (mkParserImpl 0 0 true 0 0 3 25) = true
  ∧ continue_parsing (mkParserImpl 0 0 false 0 0 3 25) = false
  ∧ continue_parsing (mkParserImpl 0 0 true 0 0 0 0) = false.
Proof.
  split; [|split].
  - apply (proj1 (continue_parsing_antitone (mkParserImpl 0 0 true 0 0 3 25)
                    (mkParserImpl 0 0 true 0 0 24 25))); [reflexivity|reflexivity| |reflexivity].
    cbn. lia.
  - apply (proj1 (proj2 (continue_parsing_antitone _ ParserImpl_new))). reflexivity.
  - apply (proj2 (proj2 (continue_parsing_antitone _ ParserImpl_new))). reflexivity.
Defined.

Lemma referenced_uniform_variables_incremental_witness :
  referenced_uniform_variables (add_referenced_module_variable shader ubo_full)
    = referenced_uniform_variables shader
  ∧ referenced_uniform_variables (add_referenced_module_variable shader var_b)
    = referenced_uniform_variables shader
  ∧ referenced_uniform_variables (add_referenced_module_variable shader var_a)
    = referenced_uniform_variables shader
  ∧ referenced_uniform_variables
      (add_referenced_module_variable (Function_new "f" []) ubo_no_set)
    = referenced_uniform_variables (Function_new "f" [])
  ∧ referenced_uniform_variables
      (add_referenced_module_variable (Function_new "f" []) ubo_full)
    = [(ubo_full, {| binding := mkBinding 5; set := mkSet 0 |})].
Proof.
  split; [|split; [|split; [|split]]].
  - apply (proj1 (referenced_uniform_variables_incremental shader ubo_full)).
    exact (list_elem_of_further _ _ _ (list_elem_of_further _ _ _
             (list_elem_of_here "ubo_full" ["ubo_plain"]))).
  - apply (proj1 (proj2 (referenced_uniform_variables_incremental shader var_b))).
    discriminate.
  - apply (proj1 (proj2 (proj2 (referenced_uniform_variables_incremental shader var_a)))).
    reflexivity.
  - apply (proj1 (proj2 (proj2 (proj2
             (referenced_uniform_variables_incremental (Function_new "f" []) ubo_no_set))))
             [BindingDeco (mkBinding 2)]); [reflexivity|].
    right. intros d Hd. apply list_elem_of_singleton in Hd. by subst.
  - apply (proj1 (proj2 (proj2 (proj2 (proj2
             (referenced_uniform_variables_incremental (Function_new "f" []) ubo_full)))))
             [BindingDeco (mkBinding 1); SetDeco (mkSet 0); BindingDeco (mkBinding 5)]
             (mkBinding 5) (mkSet 0));
      [apply not_elem_of_nil|reflexivity..].
Defined.
End FurtherWitnesses.
